(** * Tkrzw common library: a shallow embedding of [tkrzw_lib_common.h]

    The development follows the header top-down: the [Status] class with
    its code enumeration and operators, the [StatusException] class, the
    fail-fast allocation wrappers with the append-oriented capacity loop,
    the container helper [SearchMap], and the CRC-32 entry points.

    Conventions.  Fixed-width unsigned integers are values of [Z] with the
    wrap-around written out ([size_wrap]); the width of [size_t] is a
    parameter [w] of the definitions that depend on it.  [std::string] is
    [string], a sequence of 8-bit characters.  Objects that the code
    reaches through references live in a store indexed by addresses.  A
    C++ function that may throw returns a [result]. *)

From Stdlib Require Import ZArith Lia Bool List Ascii String.
From Stdlib Require Import Strings.Byte.
From stdpp Require Import base option list gmap strings.

Local Open Scope Z_scope.

(* ================================================================== *)
(** ** Control flow: values and exceptions *)

(** The exceptions thrown by the code under study. *)
Inductive result (E A : Type) : Type :=
| Return (a : A)
| Throw (e : E).
Arguments Return {E A} a.
Arguments Throw {E A} e.

(* ================================================================== *)
(** ** class Status *)

(** [enum Code : int32_t], lines 114-141. *)
Inductive Code : Type :=
| SUCCESS
| UNKNOWN_ERROR
| SYSTEM_ERROR
| NOT_IMPLEMENTED_ERROR
| PRECONDITION_ERROR
| INVALID_ARGUMENT_ERROR
| CANCELED_ERROR
| NOT_FOUND_ERROR
| PERMISSION_ERROR
| INFEASIBLE_ERROR
| DUPLICATION_ERROR
| BROKEN_DATA_ERROR
| APPLICATION_ERROR.

(** The [int32_t] value of each enumerator. *)
Definition code_value (c : Code) : Z :=
  match c with
  | SUCCESS => 0
  | UNKNOWN_ERROR => 1
  | SYSTEM_ERROR => 2
  | NOT_IMPLEMENTED_ERROR => 3
  | PRECONDITION_ERROR => 4
  | INVALID_ARGUMENT_ERROR => 5
  | CANCELED_ERROR => 6
  | NOT_FOUND_ERROR => 7
  | PERMISSION_ERROR => 8
  | INFEASIBLE_ERROR => 9
  | DUPLICATION_ERROR => 10
  | BROKEN_DATA_ERROR => 11
  | APPLICATION_ERROR => 12
  end.

(** All enumerators, in declaration order. *)
Definition all_codes : list Code :=
  [SUCCESS; UNKNOWN_ERROR; SYSTEM_ERROR; NOT_IMPLEMENTED_ERROR;
   PRECONDITION_ERROR; INVALID_ARGUMENT_ERROR; CANCELED_ERROR;
   NOT_FOUND_ERROR; PERMISSION_ERROR; INFEASIBLE_ERROR; DUPLICATION_ERROR;
   BROKEN_DATA_ERROR; APPLICATION_ERROR].

#[global] Instance Code_eq_dec : EqDecision Code.
Proof. solve_decision. Defined.

(** The two private fields [code_] and [message_]. *)
Record Status : Type := mkStatus {
  code_ : Code;
  message_ : string
}.

#[global] Instance Status_eq_dec : EqDecision Status.
Proof. solve_decision. Defined.

(** [Status()] and [Status(Code code, std::string_view message = "")]. *)
Definition Status_default : Status := mkStatus SUCCESS "".
Definition Status_of_code (code : Code) : Status := mkStatus code "".

Definition GetCode (s : Status) : Code := code_ s.
Definition GetMessage (s : Status) : string := message_ s.
Definition IsOK (s : Status) : bool := code_value (code_ s) =? code_value SUCCESS.

(** Status objects are reached through references: [operator|=] compares
    the addresses [this] and [&rhs].  A store maps addresses to the
    objects living there. *)
Definition addr : Type := nat.
Abbreviation store := (gmap addr Status).

(** [Status& operator |=(const Status& rhs)], lines 197-203.  The result
    is the store after the call; [None] stands for a dangling reference. *)
Definition op_or_assign (this rhs : addr) (st : store) : option store :=
  match st !! this, st !! rhs with
  | Some self, Some other =>
      if negb (this =? rhs)%nat
         && (code_value (code_ self) =? code_value SUCCESS)
         && negb (code_value (code_ other) =? code_value SUCCESS)
      then Some (<[this := mkStatus (code_ other) (message_ other)]> st)
      else Some st
  | _, _ => None
  end.

(** [bool operator ==(const Status& rhs) const], lines 236-238. *)
Definition op_eq (lhs rhs : Status) : bool :=
  code_value (code_ lhs) =? code_value (code_ rhs).

(** [bool operator !=(const Status& rhs) const], lines 245-247. *)
Definition op_ne (lhs rhs : Status) : bool :=
  negb (code_value (code_ lhs) =? code_value (code_ rhs)).

(** [bool operator <(const Status& rhs) const], lines 272-277.  The
    comparison of two [std::string] is the one of [String.ltb]: character
    by character on the unsigned character values, a proper prefix being
    smaller. *)
Definition op_lt (lhs rhs : Status) : bool :=
  if negb (code_value (code_ lhs) =? code_value (code_ rhs))
  then code_value (code_ lhs) <? code_value (code_ rhs)
  else String.ltb (message_ lhs) (message_ rhs).

(** [static const char* CodeName(Code code)], lines 311-328.  The
    trailing [return "unnamed error"] is reached by no enumerator. *)
Definition CodeName (code : Code) : string :=
  match code with
  | SUCCESS => "SUCCESS"
  | UNKNOWN_ERROR => "UNKNOWN_ERROR"
  | SYSTEM_ERROR => "SYSTEM_ERROR"
  | NOT_IMPLEMENTED_ERROR => "NOT_IMPLEMENTED_ERROR"
  | PRECONDITION_ERROR => "PRECONDITION_ERROR"
  | INVALID_ARGUMENT_ERROR => "INVALID_ARGUMENT_ERROR"
  | CANCELED_ERROR => "CANCELED_ERROR "
  | NOT_FOUND_ERROR => "NOT_FOUND_ERROR"
  | PERMISSION_ERROR => "PERMISSION_ERROR"
  | INFEASIBLE_ERROR => "INFEASIBLE_ERROR"
  | DUPLICATION_ERROR => "DUPLICATION_ERROR"
  | BROKEN_DATA_ERROR => "BROKEN_DATA_ERROR"
  | APPLICATION_ERROR => "APPLICATION_ERROR"
  end.

(** The spelling of each enumerator in the declaration of [Code]; what
    the display name of a code is compared with. *)
Definition enumerator_spelling (code : Code) : string :=
  match code with
  | SUCCESS => "SUCCESS"
  | UNKNOWN_ERROR => "UNKNOWN_ERROR"
  | SYSTEM_ERROR => "SYSTEM_ERROR"
  | NOT_IMPLEMENTED_ERROR => "NOT_IMPLEMENTED_ERROR"
  | PRECONDITION_ERROR => "PRECONDITION_ERROR"
  | INVALID_ARGUMENT_ERROR => "INVALID_ARGUMENT_ERROR"
  | CANCELED_ERROR => "CANCELED_ERROR"
  | NOT_FOUND_ERROR => "NOT_FOUND_ERROR"
  | PERMISSION_ERROR => "PERMISSION_ERROR"
  | INFEASIBLE_ERROR => "INFEASIBLE_ERROR"
  | DUPLICATION_ERROR => "DUPLICATION_ERROR"
  | BROKEN_DATA_ERROR => "BROKEN_DATA_ERROR"
  | APPLICATION_ERROR => "APPLICATION_ERROR"
  end.

(** [operator std::string() const], lines 283-290. *)
Definition op_string (s : Status) : string :=
  let expr := CodeName (code_ s) in
  if negb (String.eqb (message_ s) "")
  then (expr ++ ": ") ++ message_ s
  else expr.

(** [inline std::string ToString(const Status& status)], lines 362-364. *)
Definition ToString (status : Status) : string := op_string status.

(* ================================================================== *)
(** ** class StatusException *)

(** A [std::runtime_error] built from [ToString(status)], with a copy of
    the status, lines 379-399.  [what] is the message handed to the base
    class. *)
Record StatusException : Type := mkStatusException {
  what : string;
  status_ : Status
}.

Definition StatusException_of (status : Status) : StatusException :=
  mkStatusException (ToString status) status.

Definition GetStatus (e : StatusException) : Status := status_ e.

(** Modelled from the spec: the body of [Status::OrDie], of which the
    header holds the declaration only (line 304).  "If the outcome is
    success, return normally; otherwise raise a fatal failure carrying the
    full outcome."  The value returned is the reference to the object. *)
Definition OrDie (s : Status) : result StatusException Status :=
  if negb (code_value (code_ s) =? code_value SUCCESS)
  then Throw (StatusException_of s)
  else Return s.

(* ================================================================== *)
(** ** Allocation wrappers *)

(** A pointer is an address; [nullptr] is address zero. *)
Definition ptr : Type := Z.
Definition nullptr : ptr := 0.

(** [std::bad_alloc]. *)
Inductive bad_alloc : Type := std_bad_alloc.

(** [SIZEMAX], line 65, and the reduction of a sum to [size_t], for a
    [size_t] of [w] bits. *)
Definition SIZEMAX (w : Z) : Z := 2 ^ w - 1.
Definition size_wrap (w x : Z) : Z := x mod 2 ^ w.

(** One turn of the loop body of [xreallocappend], line 451:
    [aligned_size += aligned_size >> 1] in [size_t]. *)
Definition grow (w aligned_size : Z) : Z :=
  size_wrap w (aligned_size + Z.shiftr aligned_size 1).

(** The loop of [xreallocappend], lines 450-452.  Each unit of fuel pays
    for one evaluation of the loop condition; [None] is a run that is
    still in the loop when the fuel is spent. *)
Fixpoint aligned_size_loop (w : Z) (fuel : nat) (aligned_size size : Z)
  : option Z :=
  match fuel with
  | O => None
  | S fuel' =>
      if aligned_size <? size
      then aligned_size_loop w fuel' (grow w aligned_size) size
      else Some aligned_size
  end.

(** Lines 449-452: the capacity that [xreallocappend] hands to
    [xrealloc]. *)
Definition xreallocappend_capacity (w : Z) (fuel : nat) (size : Z)
  : option Z :=
  aligned_size_loop w fuel 8 size.

(** The candidate held by [aligned_size] after [j] turns of the loop. *)
Definition candidate (w : Z) (j : nat) : Z := Nat.iter j (grow w) 8.

Section Allocator.

(** The platform allocator: the state of the C heap and the three
    primitives, each returning a pointer (possibly null) and the heap
    after the call. *)
Context {heap : Type}.
Variable std_malloc : Z -> heap -> ptr * heap.
Variable std_calloc : Z -> Z -> heap -> ptr * heap.
Variable std_realloc : ptr -> Z -> heap -> ptr * heap.

(** [inline void* xmalloc(size_t size)], lines 406-412. *)
Definition xmalloc (size : Z) (h : heap) : result bad_alloc ptr * heap :=
  let '(p, h') := std_malloc size h in
  if p =? nullptr then (Throw std_bad_alloc, h') else (Return p, h').

(** [inline void* xcalloc(size_t nmemb, size_t size)], lines 420-426. *)
Definition xcalloc (nmemb size : Z) (h : heap)
  : result bad_alloc ptr * heap :=
  let '(p, h') := std_calloc nmemb size h in
  if p =? nullptr then (Throw std_bad_alloc, h') else (Return p, h').

(** [inline void* xrealloc(void* ptr, size_t size)], lines 434-440. *)
Definition xrealloc (p : ptr) (size : Z) (h : heap)
  : result bad_alloc ptr * heap :=
  let '(p', h') := std_realloc p size h in
  if p' =? nullptr then (Throw std_bad_alloc, h') else (Return p', h').

(** [inline void* xreallocappend(void* ptr, size_t size)], lines 448-454. *)
Definition xreallocappend (w : Z) (fuel : nat) (p : ptr) (size : Z)
  (h : heap) : option (result bad_alloc ptr * heap) :=
  match xreallocappend_capacity w fuel size with
  | Some aligned_size => Some (xrealloc p aligned_size h)
  | None => None
  end.

End Allocator.

(** *** The growth policy in the words of the specification *)

(** The sequence 8, 12, 18, 27, ... over the integers: "[next = current +
    current/2], integer arithmetic, floor division". *)
Fixpoint growth_seq (n : nat) : Z :=
  match n with
  | O => 8
  | S n' => let current := growth_seq n' in current + current / 2
  end.

(** "Starting at a floor of 8 bytes and repeatedly scaling the candidate
    capacity by a factor of 1.5 until it is no smaller than the requested
    size", over the integers. *)
Fixpoint spec_capacity_from (n : nat) (current s : Z) : Z :=
  match n with
  | O => current
  | S n' =>
      if current <? s
      then spec_capacity_from n' (current + current / 2) s
      else current
  end.

(** Two scalings at least double the candidate, so twice the bit length
    of [s] is enough turns. *)
Definition spec_turns (s : Z) : nat := 2 * Z.to_nat (Z.log2_up s).

Definition spec_capacity (s : Z) : Z := spec_capacity_from (spec_turns s) 8 s.

(* ================================================================== *)
(** ** Container helpers *)

Section Lookup.

(** A map with keys [K] and mapped values [V].  The function returns
    [MAP::value_type::first_type], the key type, so the value selected by
    the conditional expression goes through the implicit conversion
    [conv] from [V] to [K]. *)
Context `{Countable K} {V : Type}.
Variable conv : V -> K.

(** [CheckMap], lines 481-484. *)
Definition CheckMap (map : gmap K V) (key : K) : bool :=
  match map !! key with
  | Some _ => true
  | None => false
  end.

(** [SearchMap], lines 493-499. *)
Definition SearchMap (map : gmap K V) (key : K) (default_value : V) : K :=
  conv (match map !! key with
        | None => default_value
        | Some second => second
        end).

End Lookup.

(** The conversion of an integer to [uint8_t]. *)
Definition to_uint8 (v : Z) : Z := v mod 2 ^ 8.

(* ================================================================== *)
(** ** CRC-32 *)

(** Modelled from the spec: the body of [HashCRC32Continuous], of which
    the header holds the declaration only (lines 542-543).  "A 32-bit
    accumulator", started from the seed, "mutated by each chunk fed to
    it", and on [finish] put through "a final inversion step before being
    returned as the checksum".  The update of the accumulator by one byte
    is the one of the reflected CRC-32 with polynomial [0xEDB88320]. *)
Definition crc32_table_entry (i : Z) : Z :=
  Nat.iter 8
    (fun c => if Z.testbit c 0
              then Z.lxor 0xEDB88320 (Z.shiftr c 1)
              else Z.shiftr c 1)
    i.

Definition crc32_update (crc : Z) (b : byte) : Z :=
  Z.lxor
    (crc32_table_entry (Z.land (Z.lxor crc (Z.of_N (Byte.to_N b))) 0xFF))
    (Z.shiftr crc 8).

Section Checksum.

(** The update of the accumulator by one byte. *)
Variable update : Z -> byte -> Z.

(** Modelled from the spec: one call of the resumable checksum, for a
    given update of the accumulator by one byte. *)
Definition crc_continuous (buf : list byte) (finish : bool) (seed : Z) : Z :=
  let crc := fold_left update buf seed in
  if finish then Z.lxor crc 0xFFFFFFFF else crc.

(** The chunks of a stream fed in order: the accumulator returned by a
    call is the seed of the next one, and [finish] is true on the last
    call only.  No call is made for an empty sequence. *)
Fixpoint crc_feed (seed : Z) (chunks : list (list byte)) : Z :=
  match chunks with
  | [] => seed
  | [last] => crc_continuous last true seed
  | chunk :: rest => crc_feed (crc_continuous chunk false seed) rest
  end.

End Checksum.

(** Modelled from the spec: [HashCRC32Continuous(buf, size, finish,
    seed)], declared at lines 542-543, as the fold of the byte update
    over the buffer from the seed, inverted at the end when [finish] is
    set. *)
Definition HashCRC32Continuous (buf : list byte) (finish : bool) (seed : Z)
  : Z :=
  crc_continuous crc32_update buf finish seed.

(** [inline uint32_t HashCRC32(const void* buf, size_t size)], lines
    551-553: the seed is the default argument [0xFFFFFFFF]. *)
Definition HashCRC32 (buf : list byte) : Z :=
  HashCRC32Continuous buf true 0xFFFFFFFF.

(** Modelled from the spec: the call contract of the resumable checksum,
    as a caller drives it.  "First call supplies seed = 0xFFFFFFFF; each
    subsequent call supplies the accumulator returned by the previous
    call; the final call in the sequence supplies finish = true." *)
Definition HashCRC32Chunks (chunks : list (list byte)) : Z :=
  crc_feed crc32_update 0xFFFFFFFF chunks.

(** The bytes of a string literal. *)
Definition bytes_of (s : string) : list byte := list_byte_of_string s.

(* ================================================================== *)
(** ** Vocabulary of the statements *)

(** The lexicographic order on strings: a proper prefix is smaller, and
    otherwise the first differing characters decide, compared as
    unsigned values. *)
Inductive lex_lt : string -> string -> Prop :=
| lex_lt_prefix (c : ascii) (t : string) :
    lex_lt EmptyString (String c t)
| lex_lt_head (c d : ascii) (s t : string) :
    (N_of_ascii c < N_of_ascii d)%N ->
    lex_lt (String c s) (String d t)
| lex_lt_tail (c : ascii) (s t : string) :
    lex_lt s t ->
    lex_lt (String c s) (String c t).

(** [sub] occurs in [s]. *)
Definition contains (s sub : string) : Prop :=
  exists pre post : string, s = (pre ++ sub ++ post)%string.

(** The object at address [a] has the code and the message of [v]. *)
Definition holds (st : store) (a : addr) (v : Status) : Prop :=
  exists o : Status,
    st !! a = Some o /\ code_ o = code_ v /\ message_ o = message_ v.

(** A platform allocator for the examples: the heap is the next free
    address, regions are carved upwards and never reused, and a request
    that does not fit below [limit] fails with a null pointer. *)
Definition bump_malloc (limit size : Z) (next : Z) : ptr * Z :=
  if next + size <=? limit then (next, next + size) else (nullptr, next).
Definition bump_calloc (limit nmemb size : Z) (next : Z) : ptr * Z :=
  bump_malloc limit (nmemb * size) next.
Definition bump_realloc (limit : Z) (p : ptr) (size : Z) (next : Z)
  : ptr * Z :=
  bump_malloc limit size next.

(** The first [n] candidates from [a] on are all smaller than [s]. *)
Fixpoint all_below (w : Z) (n : nat) (a s : Z) : bool :=
  match n with
  | O => true
  | S n' => (a <? s) && all_below w n' (grow w a) s
  end.

(** The common shape of the three wrappers: the outcome is decided by the
    pointer that the platform returned. *)
Definition checked {heap : Type} (r : ptr * heap)
  : result bad_alloc ptr * heap :=
  (if fst r =? nullptr then Throw std_bad_alloc else Return (fst r), snd r).

(* ================================================================== *)
(** ** The rest of the Status class *)

(** [Status(const Status& rhs)], line 159: the object built at [this]. *)
Definition Status_copy (this rhs : addr) (st : store) : option store :=
  match st !! rhs with
  | Some other =>
      Some (<[this := mkStatus (code_ other) (message_ other)]> st)
  | None => None
  end.

(** [Status(Status&& rhs)], lines 165-167: the code is copied, and the
    message of the new object, empty so far, is swapped with the one of
    [rhs]. *)
Definition Status_move (this rhs : addr) (st : store) : option store :=
  match st !! rhs with
  | Some other =>
      Some (<[rhs := mkStatus (code_ other) ""]>
              (<[this := mkStatus (code_ other) (message_ other)]> st))
  | None => None
  end.

(** [Status& operator =(const Status& rhs)], lines 173-179. *)
Definition op_assign (this rhs : addr) (st : store) : option store :=
  match st !! this, st !! rhs with
  | Some self, Some other =>
      if negb (this =? rhs)%nat
      then Some (<[this := mkStatus (code_ other) (message_ other)]> st)
      else Some st
  | _, _ => None
  end.

(** [Status& operator =(Status&& rhs)], lines 185-191: the code is
    copied and the two messages are swapped. *)
Definition op_move_assign (this rhs : addr) (st : store) : option store :=
  match st !! this, st !! rhs with
  | Some self, Some other =>
      if negb (this =? rhs)%nat
      then Some (<[rhs := mkStatus (code_ other) (message_ self)]>
                   (<[this := mkStatus (code_ other) (message_ other)]> st))
      else Some st
  | _, _ => None
  end.

(** [void Set(Code code, std::string_view message = "")], lines 226-229. *)
Definition Set_ (this : addr) (code : Code) (message : string) (st : store)
  : option store :=
  match st !! this with
  | Some _ => Some (<[this := mkStatus code message]> st)
  | None => None
  end.

(** [bool operator ==(const Code& code) const], lines 254-256, and
    [bool operator !=(const Code& code) const], lines 263-265. *)
Definition op_eq_code (lhs : Status) (code : Code) : bool :=
  code_value (code_ lhs) =? code_value code.
Definition op_ne_code (lhs : Status) (code : Code) : bool :=
  negb (code_value (code_ lhs) =? code_value code).

(** The free operators [==] and [!=] with the code on the left, lines
    343-355. *)
Definition code_op_eq (lhs : Code) (rhs : Status) : bool :=
  code_value lhs =? code_value (GetCode rhs).
Definition code_op_ne (lhs : Code) (rhs : Status) : bool :=
  negb (code_value lhs =? code_value (GetCode rhs)).

(** A run of statements [status |= r1; status |= r2; ...] on the same
    receiver. *)
Fixpoint or_assign_all (this : addr) (rhss : list addr) (st : store)
  : option store :=
  match rhss with
  | [] => Some st
  | rhs :: rest =>
      match op_or_assign this rhs st with
      | Some st' => or_assign_all this rest st'
      | None => None
      end
  end.

(** The first status of a list that is not a success. *)
Definition first_failure (l : list Status) : option Status :=
  List.find (fun s => negb (IsOK s)) l.

(* ================================================================== *)
(** ** More container helpers *)

(** [CheckSet], lines 470-473. *)
Definition CheckSet `{Countable K} (set : gset K) (elem : K) : bool :=
  bool_decide (elem ∈ set).

(* ================================================================== *)
(** ** The command line of [tkrzw_build_util.cc] *)

(** The program writes through [PrintF] (standard output) and through
    [EPrintF] and [EPrint] (standard error), and may leave through
    [std::exit].  A run is the sequence of these calls, with their format
    and arguments, and either the value returned or the exit status. *)
Inductive farg : Type :=
| farg_str (s : string)
| farg_int (n : Z).

Inductive event : Type :=
| ev_PrintF (format : string) (args : list farg)
| ev_EPrintF (format : string) (args : list farg)
| ev_EPrint (parts : list string).

Definition prog (A : Type) : Type := (list event * result Z A)%type.

Definition ret {A : Type} (a : A) : prog A := ([], Return a).

Definition bind {A B : Type} (m : prog A) (f : A -> prog B) : prog B :=
  match m with
  | (t, Return a) => let '(t', r) := f a in (t ++ t', r)
  | (t, Throw status) => (t, Throw status)
  end.

Declare Scope prog_scope.
Delimit Scope prog_scope with prog.
Bind Scope prog_scope with prog.
Notation "x <- m ;; k" := (bind m (fun x => k))
  (at level 100, m at next level, right associativity) : prog_scope.
Notation "m ;; k" := (bind m (fun _ => k))
  (at level 100, right associativity) : prog_scope.
Local Open Scope prog_scope.

Definition PrintF (format : string) (args : list farg) : prog unit :=
  ([ev_PrintF format args], Return tt).
Definition EPrintF (format : string) (args : list farg) : prog unit :=
  ([ev_EPrintF format args], Return tt).
Definition EPrint (parts : list string) : prog unit :=
  ([ev_EPrint parts], Return tt).
Definition std_exit {A : Type} (status : Z) : prog A := ([], Throw status).

(** The character written [\n] in the C sources. *)
Definition nl : string := String "010"%char EmptyString.

(** What the program reads from its build and from the platform: the
    constants declared at lines 92-104 of the header, the macros of the
    build configuration, the sizes of the C types and the result of
    [GetSystemInfo()]. *)
Record BuildEnv : Type := mkBuildEnv {
  PACKAGE_VERSION : string;
  LIBRARY_VERSION : string;
  OS_NAME : string;
  TKRZW__IS_BIG_ENDIANE : bool;
  PAGE_SIZE : Z;
  _TKRZW_PREFIX : string;
  _TKRZW_INCLUDEDIR : string;
  _TKRZW_LIBDIR : string;
  _TKRZW_BINDIR : string;
  _TKRZW_LIBEXECDIR : string;
  _TKRZW_APPINC : string;
  _TKRZW_APPLIBS : string;
  sizeof_voidp : Z;
  sizeof_short : Z;
  sizeof_int : Z;
  sizeof_long : Z;
  sizeof_long_long : Z;
  sizeof_size_t : Z;
  sizeof_float : Z;
  sizeof_double : Z;
  sizeof_long_double : Z;
  GetSystemInfo : gmap string string
}.

(** [static void PrintUsageAndDie()], lines 19-37. *)
Definition PrintUsageAndDie : prog unit :=
  let P := EPrintF in
  let progname := "tkrzw_build_util"%string in
  P ("%s: Build utilities of Tkrzw" ++ nl)%string [farg_str progname] ;;
  P nl [] ;;
  P ("Usage:" ++ nl)%string [] ;;
  P ("  %s config [options]" ++ nl)%string [farg_str progname] ;;
  P ("    : Prints configurations." ++ nl)%string [] ;;
  P ("  %s version" ++ nl)%string [farg_str progname] ;;
  P ("    : Prints the version information." ++ nl)%string [] ;;
  P nl [] ;;
  P ("Options of the config subcommand:" ++ nl)%string [] ;;
  P ("  -v : Prints the version number." ++ nl)%string [] ;;
  P ("  -i : Prints C++ preprocessor options for build." ++ nl)%string [] ;;
  P ("  -l : Prints linker options for build." ++ nl)%string [] ;;
  P ("  -p : Prints the prefix for installation." ++ nl)%string [] ;;
  P nl [] ;;
  std_exit 1.

(** The table [cmd_configs] of [ProcessConfig], lines 41-43. *)
Definition cmd_configs : gmap string Z :=
  list_to_map
    [("-v"%string, 0); ("-i"%string, 0); ("-l"%string, 0);
     ("-p"%string, 0); (""%string, 0)].

(** [info[key]] on the map returned by [GetSystemInfo()]: the value, or
    the empty string for a key that is not there. *)
Definition info_at (info : gmap string string) (key : string) : string :=
  default ""%string (info !! key).

Section BuildUtil.

Variable env : BuildEnv.

(** [ParseCommandArguments] of [tkrzw_cmd_util.h]: from the arguments
    and the table of options, whether the command line is valid, the
    arguments found for each option, and the error message. *)
Variable ParseCommandArguments :
  list string -> gmap string Z ->
  bool * gmap string (list string) * string.

(** The last branch of [ProcessConfig], lines 59-81. *)
Definition PrintAllConfig : prog unit :=
  PrintF ("PACKAGE_VERSION: %s" ++ nl)%string
    [farg_str (PACKAGE_VERSION env)] ;;
  PrintF ("LIBRARY_VERSION: %s" ++ nl)%string
    [farg_str (LIBRARY_VERSION env)] ;;
  PrintF ("OS_NAME: %s" ++ nl)%string [farg_str (OS_NAME env)] ;;
  PrintF ("TKRZW__IS_BIG_ENDIANE: %d" ++ nl)%string
    [farg_int (if TKRZW__IS_BIG_ENDIANE env then 1 else 0)] ;;
  PrintF ("PAGE_SIZE: %d" ++ nl)%string [farg_int (PAGE_SIZE env)] ;;
  PrintF ("TYPES: void*=%d short=%d int=%d long=%d long_long=%d size_t=%d"
          ++ " float=%d double=%d long_double=%d" ++ nl)%string
    [farg_int (sizeof_voidp env); farg_int (sizeof_short env);
     farg_int (sizeof_int env); farg_int (sizeof_long env);
     farg_int (sizeof_long_long env); farg_int (sizeof_size_t env);
     farg_int (sizeof_float env); farg_int (sizeof_double env);
     farg_int (sizeof_long_double env)] ;;
  let info := GetSystemInfo env in
  (if negb (String.eqb (info_at info "mem_total") "")
   then PrintF ("MEMORY: total=%s free=%s cached=%s" ++ nl)%string
          [farg_str (info_at info "mem_total");
           farg_str (info_at info "mem_free");
           farg_str (info_at info "mem_cached")]
   else ret tt) ;;
  PrintF ("prefix: %s" ++ nl)%string [farg_str (_TKRZW_PREFIX env)] ;;
  PrintF ("includedir: %s" ++ nl)%string
    [farg_str (_TKRZW_INCLUDEDIR env)] ;;
  PrintF ("libdir: %s" ++ nl)%string [farg_str (_TKRZW_LIBDIR env)] ;;
  PrintF ("bindir: %s" ++ nl)%string [farg_str (_TKRZW_BINDIR env)] ;;
  PrintF ("libexecdir: %s" ++ nl)%string
    [farg_str (_TKRZW_LIBEXECDIR env)] ;;
  PrintF ("appinc: %s" ++ nl)%string [farg_str (_TKRZW_APPINC env)] ;;
  PrintF ("applibs: %s" ++ nl)%string [farg_str (_TKRZW_APPLIBS env)].

(** [static int32_t ProcessConfig(int32_t argc, const char** args)],
    lines 40-84; [args] are the [argc] arguments. *)
Definition ProcessConfig (args : list string) : prog Z :=
  let '(ok, cmd_args, cmd_error) :=
    ParseCommandArguments args cmd_configs in
  (if negb ok
   then EPrint ["Invalid command: "%string; cmd_error; (nl ++ nl)%string] ;;
        PrintUsageAndDie
   else ret tt) ;;
  (if CheckMap cmd_args "-v"
   then PrintF ("%s" ++ nl)%string [farg_str (PACKAGE_VERSION env)]
   else if CheckMap cmd_args "-i"
   then PrintF ("%s" ++ nl)%string [farg_str (_TKRZW_APPINC env)]
   else if CheckMap cmd_args "-l"
   then PrintF ("%s" ++ nl)%string [farg_str (_TKRZW_APPLIBS env)]
   else if CheckMap cmd_args "-p"
   then PrintF ("%s" ++ nl)%string [farg_str (_TKRZW_BINDIR env)]
   else PrintAllConfig) ;;
  ret 0.

(** [void PrintVersion()], lines 87-90. *)
Definition PrintVersion : prog unit :=
  PrintF ("Tkrzw %s (library %s) on %s (%s endian)" ++ nl)%string
    [farg_str (PACKAGE_VERSION env); farg_str (LIBRARY_VERSION env);
     farg_str (OS_NAME env);
     farg_str (if TKRZW__IS_BIG_ENDIANE env then "big" else "little")].

(** [int main(int argc, char** argv)], lines 95-109; [argv] are the
    [argc] arguments, the name of the program first. *)
Definition main (argv : list string) : prog Z :=
  (if (Z.of_nat (length argv) <? 2) then PrintUsageAndDie else ret tt) ;;
  let arg1 := nth 1 argv ""%string in
  rv <- (if String.eqb arg1 "config"
         then ProcessConfig (tail argv)
         else if String.eqb arg1 "version" || String.eqb arg1 "--version"
         then PrintVersion ;; ret 0
         else PrintUsageAndDie ;; ret 0) ;;
  ret rv.

End BuildUtil.

(** The exit status of the process for a run of [main]. *)
Definition exit_status (r : result Z Z) : Z :=
  match r with
  | Return rv => rv
  | Throw status => status
  end.

Definition is_stdout (e : event) : bool :=
  match e with
  | ev_PrintF _ _ => true
  | _ => false
  end.

(** The calls made by [PrintUsageAndDie]. *)
Definition usage_events : list event := fst PrintUsageAndDie.

(** An environment and a parser of options for the examples: the parser
    accepts the arguments after the subcommand when each of them is one
    of the four options, and records the options it met. *)
Definition example_env : BuildEnv :=
  mkBuildEnv "1.0.32" "1.79.0" "Linux" false 4096
    "/usr/local" "/usr/local/include" "/usr/local/lib" "/usr/local/bin"
    "/usr/local/libexec" "-I/usr/local/include" "-L/usr/local/lib -ltkrzw"
    8 2 4 8 8 8 4 8 16 ∅.

Definition example_parse (args : list string) (configs : gmap string Z)
  : bool * gmap string (list string) * string :=
  let opts := tail args in
  if forallb (fun a => bool_decide (a ≠ ""%string ∧ is_Some (configs !! a)))
       opts
  then (true, list_to_map (map (fun a => (a, [])) opts), ""%string)
  else (false, ∅, "invalid option"%string).

(* ================================================================== *)
(** * Properties of the Status class *)

Lemma code_value_inj (a b : Code) : code_value a = code_value b -> a = b.
Proof. destruct a, b; simpl; intros E; solve [reflexivity | discriminate E]. Qed.

Lemma code_value_eqb (a b : Code) :
  (code_value a =? code_value b) = bool_decide (a = b).
Proof.
  destruct (decide (a = b)) as [->|Hne].
  - rewrite Z.eqb_refl, bool_decide_eq_true_2; reflexivity.
  - rewrite bool_decide_eq_false_2 by assumption.
    apply Z.eqb_neq. intros E. apply Hne, code_value_inj, E.
Qed.

Lemma code_value_range (c : Code) : 0 <= code_value c <= 12.
Proof. destruct c; simpl; lia. Qed.

Lemma IsOK_iff (s : Status) : IsOK s = true <-> code_ s = SUCCESS.
Proof. unfold IsOK. rewrite code_value_eqb. apply bool_decide_eq_true. Qed.

(** What [operator|=] does to the store, by the three tests of its
    guard. *)
Lemma op_or_assign_unfold (st : store) (this rhs : addr)
  (self other : Status) :
  st !! this = Some self ->
  st !! rhs = Some other ->
  op_or_assign this rhs st =
    Some (if bool_decide (this <> rhs /\ code_ self = SUCCESS
                          /\ code_ other <> SUCCESS)
          then <[this := other]> st
          else st).
Proof.
  intros Hs Ho. unfold op_or_assign. rewrite Hs, Ho.
  rewrite !code_value_eqb. destruct other as [oc om]. simpl.
  destruct (Nat.eqb_spec this rhs) as [E|E];
    destruct (decide (code_ self = SUCCESS)) as [C|C];
    destruct (decide (oc = SUCCESS)) as [D|D];
    repeat first [ rewrite (bool_decide_eq_true_2 _)  by tauto
                 | rewrite (bool_decide_eq_false_2 _) by tauto ];
    reflexivity.
Qed.

(** C3: a receiver whose code is not SUCCESS is left as it was by [|=]:
    the store after the call is the store before it, so the receiver has
    the same code and the same message. *)
Theorem or_assign_failure_unchanged (st : store) (this rhs : addr)
  (self other : Status) :
  st !! this = Some self ->
  st !! rhs = Some other ->
  code_ self <> SUCCESS ->
  exists st' : store,
    op_or_assign this rhs st = Some st' /\ st' = st /\ st' !! this = Some self.
Proof.
  intros Hs Ho Hc. exists st.
  rewrite (op_or_assign_unfold st this rhs self other Hs Ho).
  rewrite bool_decide_eq_false_2 by tauto. auto.
Qed.

Lemma or_assign_failure_unchanged_witness :
  let st : store :=
    <[0%nat := mkStatus NOT_FOUND_ERROR "no such record"]>
      (<[1%nat := mkStatus SYSTEM_ERROR "read failed"]> ∅) in
  exists st' : store,
    op_or_assign 0%nat 1%nat st = Some st' /\ st' = st
    /\ st' !! 0%nat = Some (mkStatus NOT_FOUND_ERROR "no such record").
Proof.
  intros st.
  apply (or_assign_failure_unchanged st 0%nat 1%nat
           (mkStatus NOT_FOUND_ERROR "no such record")
           (mkStatus SYSTEM_ERROR "read failed"));
    [reflexivity | reflexivity | discriminate].
Defined.

(** C2, as stated, fails when both operands are successes with different
    messages: the receiver keeps its message. *)
Lemma or_assign_success_keeps_message :
  let self := mkStatus SUCCESS "first" in
  let other := mkStatus SUCCESS "second" in
  let st : store := <[0%nat := self]> (<[1%nat := other]> ∅) in
  st !! 0%nat = Some self /\ st !! 1%nat = Some other
  /\ code_ self = SUCCESS
  /\ ~ (exists st' : store,
          op_or_assign 0%nat 1%nat st = Some st' /\ holds st' 0%nat other).
Proof.
  intros self other st. repeat split.
  intros (st' & Hop & o & Hl & _ & Hm).
  rewrite (op_or_assign_unfold st 0%nat 1%nat self other) in Hop
    by reflexivity.
  rewrite bool_decide_eq_false_2 in Hop by (simpl; tauto).
  injection Hop as <-. vm_compute in Hl. injection Hl as <-.
  discriminate Hm.
Qed.

(** C2, amended: after [|=] on a receiver whose code is SUCCESS, the
    receiver has the code of [rhs]; it has the message of [rhs] when the
    code of [rhs] is not SUCCESS, and its own message otherwise. *)
Theorem or_assign_success_adopts (st : store) (this rhs : addr)
  (self other : Status) :
  st !! this = Some self ->
  st !! rhs = Some other ->
  code_ self = SUCCESS ->
  exists st' : store,
    op_or_assign this rhs st = Some st'
    /\ holds st' this
         (mkStatus (code_ other)
            (if decide (code_ other = SUCCESS)
             then message_ self else message_ other)).
Proof.
  intros Hs Ho Hc.
  rewrite (op_or_assign_unfold st this rhs self other Hs Ho).
  eexists; split; [reflexivity|]. unfold holds. simpl.
  case_bool_decide as G.
  - destruct G as (_ & _ & D). exists other.
    rewrite lookup_insert_eq. rewrite decide_False by assumption. auto.
  - exists self. split; [assumption|].
    destruct (decide (code_ other = SUCCESS)) as [D|D].
    + rewrite D. auto.
    + assert (this = rhs) as -> by (destruct (decide (this = rhs)); tauto).
      rewrite Hs in Ho. injection Ho as ->. auto.
Qed.

Lemma or_assign_success_adopts_witness :
  let st : store :=
    <[0%nat := mkStatus SUCCESS "done"]>
      (<[1%nat := mkStatus BROKEN_DATA_ERROR "bad checksum"]> ∅) in
  exists st' : store,
    op_or_assign 0%nat 1%nat st = Some st'
    /\ holds st' 0%nat (mkStatus BROKEN_DATA_ERROR "bad checksum").
Proof.
  intros st.
  apply (or_assign_success_adopts st 0%nat 1%nat
           (mkStatus SUCCESS "done")
           (mkStatus BROKEN_DATA_ERROR "bad checksum"));
    reflexivity.
Defined.

(** *** Display names *)

(** Twelve of the thirteen display names are the spelling of the
    enumerator; the one of [CANCELED_ERROR] has a space after it. *)
Lemma CodeName_spelling (code : Code) :
  CodeName code =
    if decide (code = CANCELED_ERROR)
    then (enumerator_spelling code ++ " ")%string
    else enumerator_spelling code.
Proof. destruct code; reflexivity. Qed.

(** C4, at the code where it fails: the display name of [CANCELED_ERROR]
    is the enumerator followed by a space, fifteen characters instead of
    fourteen, and so differs from the spelling of the enumerator. *)
Theorem CodeName_CANCELED_ERROR_trailing_space :
  CodeName CANCELED_ERROR = "CANCELED_ERROR "%string
  /\ String.length (CodeName CANCELED_ERROR) = 15%nat
  /\ enumerator_spelling CANCELED_ERROR = "CANCELED_ERROR"%string
  /\ CodeName CANCELED_ERROR <> enumerator_spelling CANCELED_ERROR.
Proof. repeat split. discriminate. Qed.

Lemma CodeName_inj (a b : Code) : CodeName a = CodeName b -> a = b.
Proof. destruct a, b; intros E; solve [reflexivity | discriminate E]. Qed.

(** *** Comparisons *)

Lemma ascii_compare_lt (c d : ascii) :
  Ascii.compare c d = Lt <-> (N_of_ascii c < N_of_ascii d)%N.
Proof. unfold Ascii.compare. apply N.compare_lt_iff. Qed.

Lemma ascii_compare_refl (c : ascii) : Ascii.compare c c = Eq.
Proof. unfold Ascii.compare. apply N.compare_refl. Qed.

Lemma string_compare_lt (s t : string) :
  String.compare s t = Lt <-> lex_lt s t.
Proof.
  split.
  - revert t. induction s as [|c s IH]; intros [|d t]; simpl;
      try discriminate.
    + intros _. constructor.
    + destruct (Ascii.compare c d) eqn:E; try discriminate.
      * apply Ascii.compare_eq_iff in E. subst d.
        intros Hlt. apply lex_lt_tail, IH, Hlt.
      * intros _. apply lex_lt_head, ascii_compare_lt, E.
  - induction 1 as [c t|c d s t Hcd|c s t _ IH]; simpl.
    + reflexivity.
    + apply ascii_compare_lt in Hcd. rewrite Hcd. reflexivity.
    + rewrite ascii_compare_refl. exact IH.
Qed.

Lemma string_ltb_lex (s t : string) : String.ltb s t = true <-> lex_lt s t.
Proof.
  rewrite <- string_compare_lt. unfold String.ltb.
  destruct (String.compare s t); split; congruence.
Qed.

(** C5: [==] holds exactly when the codes are the same and [!=] exactly
    when they differ, whatever the messages; [<] holds exactly when the
    ordinal of the left code is smaller, or the codes are the same and the
    left message is lexicographically smaller. *)
Theorem status_comparisons (a b : Status) :
  (op_eq a b = true <-> code_ a = code_ b)
  /\ (op_ne a b = true <-> code_ a <> code_ b)
  /\ (op_lt a b = true <->
        code_value (code_ a) < code_value (code_ b)
        \/ (code_ a = code_ b /\ lex_lt (message_ a) (message_ b))).
Proof.
  unfold op_eq, op_ne, op_lt. rewrite code_value_eqb.
  destruct (decide (code_ a = code_ b)) as [E|E].
  - rewrite bool_decide_eq_true_2 by assumption. simpl.
    rewrite string_ltb_lex, E.
    repeat split; try tauto; try discriminate.
    intros [Hlt|[_ Hlex]]; [lia | exact Hlex].
  - rewrite bool_decide_eq_false_2 by assumption. simpl.
    rewrite Z.ltb_lt.
    repeat split; try tauto; try discriminate.
Qed.

(** The comparisons do not look at the messages when the codes differ,
    and [==] never does. *)
Lemma op_eq_ignores_message (c d : Code) (m m' n n' : string) :
  op_eq (mkStatus c m) (mkStatus d n) = op_eq (mkStatus c m') (mkStatus d n').
Proof. reflexivity. Qed.

(** *** Escalation *)

Lemma string_app_cons (c : ascii) (s t : string) :
  (String c s ++ t = String c (s ++ t))%string.
Proof. reflexivity. Qed.

Lemma string_app_nil_r (s : string) : (s ++ "" = s)%string.
Proof.
  induction s as [|c s IH]; [reflexivity|].
  rewrite string_app_cons, IH. reflexivity.
Qed.

Lemma string_app_assoc (a b c : string) :
  ((a ++ b) ++ c = a ++ b ++ c)%string.
Proof.
  induction a as [|x a IH]; [reflexivity|].
  rewrite !string_app_cons, IH. reflexivity.
Qed.

Lemma contains_prefix (s t : string) : contains (s ++ t) s.
Proof. exists ""%string, t. reflexivity. Qed.

Lemma contains_refl (s : string) : contains s s.
Proof.
  exists ""%string, ""%string. rewrite string_app_nil_r. reflexivity.
Qed.

Lemma op_string_cases (s : Status) :
  op_string s =
    if decide (message_ s = ""%string)
    then CodeName (code_ s)
    else (CodeName (code_ s) ++ ": " ++ message_ s)%string.
Proof.
  unfold op_string.
  destruct (String.eqb_spec (message_ s) "") as [E|E]; simpl.
  - rewrite decide_True by assumption. reflexivity.
  - rewrite decide_False by assumption. apply string_app_assoc.
Qed.

(** C9: [OrDie] returns the status when its code is SUCCESS; otherwise it
    throws a [StatusException] that carries the status and whose message
    is the display name of the code, followed by a colon, a space and the
    detail when the detail is not empty; the message contains the display
    name. *)
Theorem OrDie_escalates (s : Status) :
  (code_ s = SUCCESS -> OrDie s = Return s)
  /\ (code_ s <> SUCCESS ->
      exists e : StatusException,
        OrDie s = Throw e
        /\ GetStatus e = s
        /\ what e =
             (if decide (message_ s = ""%string)
              then CodeName (code_ s)
              else (CodeName (code_ s) ++ ": " ++ message_ s)%string)
        /\ contains (what e) (CodeName (code_ s))).
Proof.
  unfold OrDie. rewrite code_value_eqb. split; intros Hc.
  - rewrite bool_decide_eq_true_2 by assumption. reflexivity.
  - rewrite bool_decide_eq_false_2 by assumption. simpl.
    eexists; split; [reflexivity|]. split; [reflexivity|].
    simpl. unfold ToString. rewrite op_string_cases.
    split; [reflexivity|].
    destruct (decide (message_ s = ""%string)).
    + apply contains_refl.
    + apply contains_prefix.
Qed.

Lemma OrDie_escalates_witness :
  OrDie (mkStatus SUCCESS "") = Return (mkStatus SUCCESS "")
  /\ exists e : StatusException,
       OrDie (mkStatus NOT_FOUND_ERROR "no such record") = Throw e
       /\ GetStatus e = mkStatus NOT_FOUND_ERROR "no such record"
       /\ what e = "NOT_FOUND_ERROR: no such record"%string
       /\ contains (what e) "NOT_FOUND_ERROR".
Proof.
  split.
  - apply (proj1 (OrDie_escalates (mkStatus SUCCESS ""))). reflexivity.
  - apply (proj2 (OrDie_escalates
                    (mkStatus NOT_FOUND_ERROR "no such record"))).
    discriminate.
Defined.

(* ================================================================== *)
(** * Properties of the allocation wrappers *)

Section AllocatorProperties.

Context {heap : Type}.
Variable std_malloc : Z -> heap -> ptr * heap.
Variable std_calloc : Z -> Z -> heap -> ptr * heap.
Variable std_realloc : ptr -> Z -> heap -> ptr * heap.

Lemma xmalloc_checked (size : Z) (h : heap) :
  xmalloc std_malloc size h = checked (std_malloc size h).
Proof.
  unfold xmalloc, checked. destruct (std_malloc size h) as [p h']. simpl.
  destruct (p =? nullptr); reflexivity.
Qed.

Lemma xcalloc_checked (nmemb size : Z) (h : heap) :
  xcalloc std_calloc nmemb size h = checked (std_calloc nmemb size h).
Proof.
  unfold xcalloc, checked. destruct (std_calloc nmemb size h) as [p h'].
  simpl. destruct (p =? nullptr); reflexivity.
Qed.

Lemma xrealloc_checked (p : ptr) (size : Z) (h : heap) :
  xrealloc std_realloc p size h = checked (std_realloc p size h).
Proof.
  unfold xrealloc, checked. destruct (std_realloc p size h) as [p' h'].
  simpl. destruct (p' =? nullptr); reflexivity.
Qed.

Lemma checked_spec (r : ptr * heap) :
  (fst r = nullptr -> fst (checked r) = Throw std_bad_alloc)
  /\ (fst r <> nullptr -> fst (checked r) = Return (fst r))
  /\ fst (checked r) <> Return nullptr
  /\ snd (checked r) = snd r.
Proof.
  unfold checked. simpl.
  destruct (Z.eqb_spec (fst r) nullptr) as [E|E]; repeat split;
    try tauto; try discriminate.
  intros [= E']. tauto.
Qed.

(** C8: each of [xmalloc], [xcalloc] and [xrealloc] throws
    [std::bad_alloc] when the platform allocator returns a null pointer,
    returns the pointer of the platform allocator when it is not null,
    and so never returns a null pointer. *)
Theorem xalloc_never_null :
  (forall (size : Z) (h : heap),
      let r := std_malloc size h in
      let x := xmalloc std_malloc size h in
      (fst r = nullptr -> fst x = Throw std_bad_alloc)
      /\ (fst r <> nullptr -> fst x = Return (fst r))
      /\ fst x <> Return nullptr
      /\ snd x = snd r)
  /\ (forall (nmemb size : Z) (h : heap),
      let r := std_calloc nmemb size h in
      let x := xcalloc std_calloc nmemb size h in
      (fst r = nullptr -> fst x = Throw std_bad_alloc)
      /\ (fst r <> nullptr -> fst x = Return (fst r))
      /\ fst x <> Return nullptr
      /\ snd x = snd r)
  /\ (forall (p : ptr) (size : Z) (h : heap),
      let r := std_realloc p size h in
      let x := xrealloc std_realloc p size h in
      (fst r = nullptr -> fst x = Throw std_bad_alloc)
      /\ (fst r <> nullptr -> fst x = Return (fst r))
      /\ fst x <> Return nullptr
      /\ snd x = snd r).
Proof.
  split; [|split]; intros; subst r x.
  - rewrite xmalloc_checked. apply checked_spec.
  - rewrite xcalloc_checked. apply checked_spec.
  - rewrite xrealloc_checked. apply checked_spec.
Qed.

End AllocatorProperties.

(** On the bump allocator with 64 bytes left: a request of 100 bytes
    throws, a request of 16 bytes returns the region at address 1000. *)
Lemma xalloc_never_null_witness :
  fst (xmalloc (bump_malloc 1064) 100 1000) = Throw std_bad_alloc
  /\ fst (xmalloc (bump_malloc 1064) 16 1000) = Return 1000
  /\ fst (xcalloc (bump_calloc 1064) 20 8 1000) = Throw std_bad_alloc
  /\ fst (xrealloc (bump_realloc 1064) 1000 32 1016) = Return 1016.
Proof.
  pose proof (xalloc_never_null (bump_malloc 1064) (bump_calloc 1064)
                (bump_realloc 1064)) as (Hm & Hc & Hr).
  split; [|split; [|split]].
  - apply (Hm 100 1000). reflexivity.
  - apply (Hm 16 1000). discriminate.
  - apply (Hc 20 8 1000). reflexivity.
  - apply (Hr 1000 32 1016). discriminate.
Defined.

(* ================================================================== *)
(** * Properties of the container helpers *)

(** C7, at a map where it fails: with one-byte keys and wider values,
    the value that comes back is the default, or the stored value,
    reduced to the key type; 300 comes back as 44. *)
Theorem SearchMap_returns_key_type :
  SearchMap to_uint8 (∅ : gmap Z Z) 1 300 = 44
  /\ SearchMap to_uint8 ({[1 := 300]} : gmap Z Z) 1 0 = 44.
Proof. split; reflexivity. Qed.

(** Where the key type and the mapped type are the same, nothing is
    converted and the lookup is exact. *)
Lemma SearchMap_same_type `{Countable K} (map : gmap K K) (key d : K) :
  (map !! key = None -> SearchMap id map key d = d)
  /\ (forall v : K, map !! key = Some v -> SearchMap id map key d = v).
Proof.
  unfold SearchMap. split.
  - intros ->. reflexivity.
  - intros v ->. reflexivity.
Qed.

Lemma SearchMap_conv `{Countable K} {V : Type} (conv : V -> K)
  (map : gmap K V) (key : K) (d : V) :
  SearchMap conv map key d = conv (default d (map !! key)).
Proof. unfold SearchMap. destruct (map !! key); reflexivity. Qed.

Lemma CheckMap_dom `{Countable K} {V : Type} (map : gmap K V) (key : K) :
  CheckMap map key = true <-> key ∈ dom map.
Proof.
  unfold CheckMap. rewrite elem_of_dom.
  destruct (map !! key) eqn:E; split; try discriminate; eauto.
  intros [v Hv]. discriminate Hv.
Qed.

(* ================================================================== *)
(** * Properties of the resumable checksum *)

Section ChecksumProperties.

Variable update : Z -> byte -> Z.

Lemma crc_continuous_app (a b : list byte) (finish : bool) (seed : Z) :
  crc_continuous update (a ++ b) finish seed =
    crc_continuous update b finish (crc_continuous update a false seed).
Proof. unfold crc_continuous. rewrite fold_left_app. reflexivity. Qed.

Lemma crc_feed_cons (seed : Z) (chunk : list byte)
  (rest : list (list byte)) :
  rest <> [] ->
  crc_feed update seed (chunk :: rest) =
    crc_feed update (crc_continuous update chunk false seed) rest.
Proof. destruct rest; [congruence | reflexivity]. Qed.

(** Feeding the chunks is the one-shot computation on their
    concatenation, for any update of the accumulator and any seed, as
    soon as one call is made. *)
Lemma crc_feed_concat (chunks : list (list byte)) (seed : Z) :
  chunks <> [] ->
  crc_feed update seed chunks =
    crc_continuous update (concat chunks) true seed.
Proof.
  revert seed. induction chunks as [|chunk rest IH]; intros seed Hne.
  - congruence.
  - destruct rest as [|next rest].
    + simpl. rewrite app_nil_r. reflexivity.
    + rewrite crc_feed_cons by discriminate.
      rewrite IH by discriminate.
      change (concat (chunk :: next :: rest))
        with (chunk ++ concat (next :: rest)).
      rewrite crc_continuous_app. reflexivity.
Qed.

End ChecksumProperties.

(** C1: the chunks of a buffer, none of them empty, fed in order with
    seed 0xFFFFFFFF on the first call, each returned accumulator as the
    next seed and [finish] on the last call only, give the value of the
    one-shot [HashCRC32] on the whole buffer, which is
    [HashCRC32Continuous] with [finish] and the default seed. *)
Theorem crc32_chunked_equals_oneshot (chunks : list (list byte)) :
  chunks <> [] ->
  Forall (fun chunk => chunk <> []) chunks ->
  HashCRC32Chunks chunks = HashCRC32 (concat chunks)
  /\ HashCRC32 (concat chunks) =
       HashCRC32Continuous (concat chunks) true 0xFFFFFFFF.
Proof.
  intros Hne _. split; [|reflexivity].
  unfold HashCRC32Chunks, HashCRC32, HashCRC32Continuous.
  apply crc_feed_concat, Hne.
Qed.

Lemma crc32_chunked_equals_oneshot_witness :
  HashCRC32Chunks [bytes_of "123"; bytes_of "456"; bytes_of "789"] =
    HashCRC32 (bytes_of "123456789")
  /\ HashCRC32 (bytes_of "123456789") =
       HashCRC32Continuous (bytes_of "123456789") true 0xFFFFFFFF.
Proof.
  apply (crc32_chunked_equals_oneshot
           [bytes_of "123"; bytes_of "456"; bytes_of "789"]).
  - discriminate.
  - repeat constructor; discriminate.
Defined.

(** *** The accumulator stays a 32-bit value *)

Lemma lxor_range (n a b : Z) :
  0 <= n -> 0 <= a < 2 ^ n -> 0 <= b < 2 ^ n -> 0 <= Z.lxor a b < 2 ^ n.
Proof.
  intros Hn [Ha Ha'] [Hb Hb'].
  assert (0 <= Z.lxor a b) as Hx by (apply Z.lxor_nonneg; tauto).
  split; [exact Hx|].
  apply Z.bounded_iff_bits_nonneg; [assumption..|].
  intros l Hl. rewrite Z.lxor_spec.
  rewrite (proj1 (Z.bounded_iff_bits_nonneg n a Hn Ha) Ha' l Hl).
  rewrite (proj1 (Z.bounded_iff_bits_nonneg n b Hn Hb) Hb' l Hl).
  reflexivity.
Qed.

Lemma land_byte_range (x : Z) : 0 <= Z.land x 0xFF < 2 ^ 32.
Proof.
  assert (0 <= Z.land x 0xFF) as Hx by (apply Z.land_nonneg; lia).
  split; [exact Hx|].
  apply Z.bounded_iff_bits_nonneg; [lia | assumption |].
  intros l Hl. rewrite Z.land_spec.
  rewrite (proj1 (Z.bounded_iff_bits_nonneg 8 0xFF ltac:(lia) ltac:(lia))
             ltac:(reflexivity) l ltac:(lia)).
  apply andb_false_r.
Qed.

Lemma shiftr_range (a k : Z) :
  0 <= k -> 0 <= a < 2 ^ 32 -> 0 <= Z.shiftr a k < 2 ^ 32.
Proof.
  intros Hk [Ha Ha']. rewrite Z.shiftr_div_pow2 by assumption.
  assert (0 < 2 ^ k) by (apply Z.pow_pos_nonneg; lia).
  split; [apply Z.div_pos; lia|].
  apply Z.div_lt_upper_bound; [assumption|]. nia.
Qed.

Lemma crc32_table_entry_range (i : Z) :
  0 <= i < 2 ^ 32 -> 0 <= crc32_table_entry i < 2 ^ 32.
Proof.
  unfold crc32_table_entry. generalize 8%nat as n.
  induction n as [|n IH]; intros Hi; [exact Hi|].
  rewrite Nat.iter_succ. cbv beta. specialize (IH Hi).
  match goal with
  | |- context [Z.testbit ?c 0] => destruct (Z.testbit c 0)
  end.
  - apply lxor_range; [lia | lia | apply shiftr_range; [lia | exact IH]].
  - apply shiftr_range; [lia | exact IH].
Qed.

Lemma crc32_update_range (crc : Z) (b : byte) :
  0 <= crc < 2 ^ 32 -> 0 <= crc32_update crc b < 2 ^ 32.
Proof.
  intros Hc. unfold crc32_update. apply lxor_range; [lia | |].
  - apply crc32_table_entry_range, land_byte_range.
  - apply shiftr_range; [lia | exact Hc].
Qed.

(** Every value returned by the resumable checksum for a 32-bit seed is
    a 32-bit value, so it can be the seed of the next call. *)
Lemma HashCRC32Continuous_range (buf : list byte) (finish : bool)
  (seed : Z) :
  0 <= seed < 2 ^ 32 ->
  0 <= HashCRC32Continuous buf finish seed < 2 ^ 32.
Proof.
  unfold HashCRC32Continuous, crc_continuous.
  assert (forall s, 0 <= s < 2 ^ 32 ->
                    0 <= fold_left crc32_update buf s < 2 ^ 32) as Hfold.
  { induction buf as [|b buf IH]; intros s Hs; [exact Hs|].
    simpl. apply IH, crc32_update_range, Hs. }
  intros Hs. specialize (Hfold seed Hs).
  destruct finish; [|exact Hfold].
  apply lxor_range; [lia | exact Hfold | lia].
Qed.

(** The check value of CRC-32. *)
Example HashCRC32_check : HashCRC32 (bytes_of "123456789") = 0xCBF43926.
Proof. vm_compute. reflexivity. Qed.

(* ================================================================== *)
(** * Properties of the append-oriented growth *)

(** *** The sequence 8, 12, 18, 27, ... *)

Lemma growth_seq_S (n : nat) :
  growth_seq (S n) = growth_seq n + growth_seq n / 2.
Proof. reflexivity. Qed.

Lemma growth_seq_ge_8 (n : nat) : 8 <= growth_seq n.
Proof.
  induction n as [|n IH]; [simpl; lia|].
  rewrite growth_seq_S.
  assert (0 <= growth_seq n / 2) by (apply Z.div_pos; lia). lia.
Qed.

Lemma growth_seq_lt_S (n : nat) : growth_seq n < growth_seq (S n).
Proof.
  rewrite growth_seq_S. pose proof (growth_seq_ge_8 n) as H8.
  assert (4 <= growth_seq n / 2) by (apply Z.div_le_lower_bound; lia). lia.
Qed.

Lemma growth_seq_mono (n m : nat) :
  (n <= m)%nat -> growth_seq n <= growth_seq m.
Proof.
  induction 1 as [|m _ IH]; [lia|].
  pose proof (growth_seq_lt_S m). lia.
Qed.

Lemma growth_seq_strict (n m : nat) :
  (n < m)%nat -> growth_seq n < growth_seq m.
Proof.
  intros H. pose proof (growth_seq_mono (S n) m H).
  pose proof (growth_seq_lt_S n). lia.
Qed.

Lemma growth_seq_double (n : nat) :
  2 * growth_seq n <= growth_seq (S (S n)).
Proof.
  rewrite !growth_seq_S. pose proof (growth_seq_ge_8 n).
  Z.to_euclidean_division_equations. lia.
Qed.

Lemma growth_seq_pow2 (k : nat) : 8 * 2 ^ Z.of_nat k <= growth_seq (2 * k).
Proof.
  induction k as [|k IH]; [simpl; lia|].
  replace (2 * S k)%nat with (S (S (2 * k))) by lia.
  rewrite Nat2Z.inj_succ, Z.pow_succ_r by lia.
  pose proof (growth_seq_double (2 * k)). lia.
Qed.

(** The number of turns granted to the specification's loop is enough. *)
Lemma growth_seq_spec_turns (s : Z) : s <= growth_seq (spec_turns s).
Proof.
  unfold spec_turns. destruct (Z_le_gt_dec s 1) as [Hs|Hs].
  - pose proof (growth_seq_ge_8 (2 * Z.to_nat (Z.log2_up s))). lia.
  - pose proof (growth_seq_pow2 (Z.to_nat (Z.log2_up s))) as Hp.
    rewrite Z2Nat.id in Hp by apply Z.log2_up_nonneg.
    pose proof (Z.log2_up_spec s ltac:(lia)) as [_ Hup].
    assert (0 < 2 ^ Z.log2_up s) by (apply Z.pow_pos_nonneg;
      [lia | apply Z.log2_up_nonneg]).
    lia.
Qed.

(** The first element that is not smaller than [s]. *)
Lemma growth_seq_first (s : Z) (k : nat) :
  s <= growth_seq k ->
  exists n : nat,
    (n <= k)%nat /\ s <= growth_seq n
    /\ forall m : nat, (m < n)%nat -> growth_seq m < s.
Proof.
  induction k as [|k IH]; intros Hk.
  - exists 0%nat. repeat split; [lia | assumption | lia].
  - destruct (Z_le_gt_dec s (growth_seq k)) as [Hle|Hgt].
    + destruct (IH Hle) as (n & Hn & Hs & Hm). exists n. auto.
    + exists (S k). repeat split; [lia | assumption |].
      intros m Hm. pose proof (growth_seq_mono m k ltac:(lia)). lia.
Qed.

(** *** The loop over the integers *)

Lemma spec_capacity_from_run (s : Z) (n j fuel : nat) :
  (n <= fuel)%nat ->
  (forall i : nat, (j <= i < j + n)%nat -> growth_seq i < s) ->
  s <= growth_seq (j + n) ->
  spec_capacity_from fuel (growth_seq j) s = growth_seq (j + n).
Proof.
  revert j fuel. induction n as [|n IH]; intros j fuel Hf Hlt Hge.
  - rewrite Nat.add_0_r in *. destruct fuel as [|fuel]; [reflexivity|].
    simpl. destruct (Z.ltb_spec (growth_seq j) s); [lia | reflexivity].
  - destruct fuel as [|fuel]; [lia|]. simpl.
    pose proof (Hlt j ltac:(lia)).
    destruct (Z.ltb_spec (growth_seq j) s); [|lia].
    rewrite <- growth_seq_S.
    replace (j + S n)%nat with (S j + n)%nat in * by lia.
    apply IH; [lia | | assumption].
    intros i Hi. apply Hlt. lia.
Qed.

Lemma spec_capacity_first (s : Z) (n : nat) :
  s <= growth_seq n ->
  (forall m : nat, (m < n)%nat -> growth_seq m < s) ->
  spec_capacity s = growth_seq n.
Proof.
  intros Hge Hlt. unfold spec_capacity.
  apply (spec_capacity_from_run s n 0 (spec_turns s)).
  - destruct (le_lt_dec n (spec_turns s)) as [Hle|Hgt]; [assumption|].
    pose proof (Hlt _ Hgt). pose proof (growth_seq_spec_turns s). lia.
  - intros i Hi. apply Hlt. lia.
  - exact Hge.
Qed.

(** *** The loop in [size_t] *)

Lemma shiftr_1 (a : Z) : Z.shiftr a 1 = a / 2.
Proof. rewrite Z.shiftr_div_pow2 by lia. reflexivity. Qed.

Lemma grow_no_wrap (w a : Z) :
  0 <= a -> a + Z.shiftr a 1 <= SIZEMAX w -> grow w a = a + a / 2.
Proof.
  unfold grow, size_wrap, SIZEMAX. rewrite shiftr_1. intros Ha Hle.
  assert (0 <= a / 2) by (apply Z.div_pos; lia).
  apply Z.mod_small. lia.
Qed.

Lemma candidate_S (w : Z) (j : nat) :
  candidate w (S j) = grow w (candidate w j).
Proof. reflexivity. Qed.

(** Below a representable element of the sequence, the candidates of the
    code are the elements of the sequence and no addition wraps. *)
Lemma candidate_growth_seq (w : Z) (n j : nat) :
  growth_seq n <= SIZEMAX w ->
  (j <= n)%nat ->
  candidate w j = growth_seq j
  /\ forall i : nat,
       (i < j)%nat -> candidate w i + Z.shiftr (candidate w i) 1 <= SIZEMAX w.
Proof.
  intros Hn. induction j as [|j IH]; intros Hj.
  - split; [reflexivity | lia].
  - destruct (IH ltac:(lia)) as [Hc Hi].
    assert (candidate w j + Z.shiftr (candidate w j) 1 <= SIZEMAX w) as Hfit.
    { rewrite Hc, shiftr_1, <- growth_seq_S.
      pose proof (growth_seq_mono (S j) n Hj). lia. }
    split.
    + rewrite candidate_S, grow_no_wrap, Hc; [reflexivity | | exact Hfit].
      pose proof (growth_seq_ge_8 j). lia.
    + intros i Hlt. destruct (decide (i = j)) as [->|Hne];
        [exact Hfit | apply Hi; lia].
Qed.

Lemma aligned_size_loop_run (w s : Z) (n j fuel : nat) :
  (n < fuel)%nat ->
  (forall i : nat, (j <= i < j + n)%nat -> candidate w i < s) ->
  s <= candidate w (j + n) ->
  aligned_size_loop w fuel (candidate w j) s = Some (candidate w (j + n)).
Proof.
  revert j fuel. induction n as [|n IH]; intros j fuel Hf Hlt Hge.
  - rewrite Nat.add_0_r in *. destruct fuel as [|fuel]; [lia|].
    simpl. destruct (Z.ltb_spec (candidate w j) s); [lia | reflexivity].
  - destruct fuel as [|fuel]; [lia|]. simpl.
    pose proof (Hlt j ltac:(lia)).
    destruct (Z.ltb_spec (candidate w j) s); [|lia].
    rewrite <- candidate_S.
    replace (j + S n)%nat with (S j + n)%nat in * by lia.
    apply IH; [lia | | assumption].
    intros i Hi. apply Hlt. lia.
Qed.

(** More fuel does not change a result. *)
Lemma aligned_size_loop_fuel (w s : Z) (fuel fuel' : nat) (a c : Z) :
  (fuel <= fuel')%nat ->
  aligned_size_loop w fuel a s = Some c ->
  aligned_size_loop w fuel' a s = Some c.
Proof.
  revert fuel' a. induction fuel as [|fuel IH]; intros fuel' a Hle;
    [discriminate|].
  destruct fuel' as [|fuel']; [lia|]. simpl.
  destruct (a <? s); [apply IH; lia | trivial].
Qed.

Lemma aligned_size_loop_det (w s : Z) (fuel fuel' : nat) (a c c' : Z) :
  aligned_size_loop w fuel a s = Some c ->
  aligned_size_loop w fuel' a s = Some c' ->
  c = c'.
Proof.
  intros H H'.
  apply (aligned_size_loop_fuel w s fuel (Nat.max fuel fuel')) in H; [|lia].
  apply (aligned_size_loop_fuel w s fuel' (Nat.max fuel fuel')) in H'; [|lia].
  congruence.
Qed.

(** Whatever happens in the loop, a capacity that comes out of it is not
    smaller than the request and not smaller than 8. *)
Lemma aligned_size_loop_exit (w s : Z) (fuel : nat) (a c : Z) :
  aligned_size_loop w fuel a s = Some c ->
  s <= c /\ (c = a \/ a < s).
Proof.
  revert a. induction fuel as [|fuel IH]; intros a; [discriminate|].
  simpl. destruct (Z.ltb_spec a s) as [Hlt|Hge].
  - intros H. apply IH in H. lia.
  - intros [= <-]. lia.
Qed.

Lemma xreallocappend_capacity_bounds (w s : Z) (fuel : nat) (c : Z) :
  xreallocappend_capacity w fuel s = Some c -> s <= c /\ 8 <= c.
Proof.
  intros H. apply aligned_size_loop_exit in H. lia.
Qed.

(** The run of the loop for a request below a representable element. *)
Lemma xreallocappend_capacity_run (w s : Z) (k : nat) :
  s <= growth_seq k <= SIZEMAX w ->
  exists n : nat,
    (n <= k)%nat
    /\ s <= growth_seq n
    /\ (forall m : nat, (m < n)%nat -> growth_seq m < s)
    /\ forall fuel : nat,
         (n < fuel)%nat ->
         xreallocappend_capacity w fuel s = Some (growth_seq n).
Proof.
  intros [Hs Hk].
  destruct (growth_seq_first s k Hs) as (n & Hn & Hge & Hlt).
  exists n. repeat split; try assumption.
  intros fuel Hf. unfold xreallocappend_capacity.
  assert (forall j, (j <= n)%nat -> candidate w j = growth_seq j) as Hc.
  { intros j Hj. apply (candidate_growth_seq w k j); [assumption | lia]. }
  rewrite <- (Hc n) by lia.
  apply (aligned_size_loop_run w s n 0 fuel Hf).
  - intros i Hi. rewrite Hc by lia. apply Hlt. lia.
  - simpl. rewrite Hc by lia. exact Hge.
Qed.

(** C6, as stated, fails on a 64-bit [size_t] for the request one above
    the largest representable element of the sequence: the next candidate
    over the integers is 24279262744556223748, above [SIZEMAX], while the
    loop of the code wraps around and leaves with 18007068465314465499. *)
Lemma xreallocappend_capacity_wraps :
  let s := 16186175163037482500 in
  0 <= s <= SIZEMAX 64
  /\ spec_capacity s = 24279262744556223748
  /\ xreallocappend_capacity 64 156 s = Some 18007068465314465499
  /\ ~ (exists fuel : nat,
          xreallocappend_capacity 64 fuel s = Some (spec_capacity s)).
Proof.
  intros s.
  assert (xreallocappend_capacity 64 156 s = Some 18007068465314465499)
    as Hrun by (vm_compute; reflexivity).
  assert (spec_capacity s = 24279262744556223748)
    as Hspec by (vm_compute; reflexivity).
  split; [split; vm_compute; discriminate|].
  split; [exact Hspec|]. split; [exact Hrun|].
  intros [fuel Hf]. rewrite Hspec in Hf.
  pose proof (aligned_size_loop_det _ _ _ _ _ _ _ Hrun Hf) as E.
  discriminate E.
Qed.

Section Growth.

Context {heap : Type}.
Variable std_realloc : ptr -> Z -> heap -> ptr * heap.

(** C6, amended: for every requested size [s] that is not above an element
    of the sequence 8, 12, 18, 27, ... representable in [size_t], the loop
    of [xreallocappend] leaves with the capacity obtained over the
    integers by starting at 8 and replacing the candidate by candidate +
    floor(candidate/2) until it is no smaller than [s]; this capacity is
    the one passed to [xrealloc], and it is at least [s] and at least 8. *)
Theorem xreallocappend_grows (w s : Z) (k : nat) (p : ptr) (h : heap) :
  s <= growth_seq k <= SIZEMAX w ->
  (forall fuel : nat,
      (spec_turns s < fuel)%nat ->
      xreallocappend_capacity w fuel s = Some (spec_capacity s)
      /\ xreallocappend std_realloc w fuel p s h =
           Some (xrealloc std_realloc p (spec_capacity s) h))
  /\ s <= spec_capacity s
  /\ 8 <= spec_capacity s.
Proof.
  intros Hk.
  destruct (xreallocappend_capacity_run w s k Hk) as (n & _ & Hge & Hlt & Hrun).
  rewrite (spec_capacity_first s n Hge Hlt).
  assert (n <= spec_turns s)%nat as Hn.
  { destruct (le_lt_dec n (spec_turns s)) as [Hle|Hgt]; [assumption|].
    pose proof (Hlt _ Hgt). pose proof (growth_seq_spec_turns s). lia. }
  split; [|split; [exact Hge | apply growth_seq_ge_8]].
  intros fuel Hf. unfold xreallocappend.
  rewrite (Hrun fuel) by lia. split; reflexivity.
Qed.

End Growth.

Lemma xreallocappend_grows_witness :
  (forall fuel : nat,
      (spec_turns 100 < fuel)%nat ->
      xreallocappend_capacity 64 fuel 100 = Some (spec_capacity 100)
      /\ xreallocappend (bump_realloc 4096) 64 fuel 1000 100 1040 =
           Some (xrealloc (bump_realloc 4096) 1000 (spec_capacity 100) 1040))
  /\ 100 <= spec_capacity 100
  /\ 8 <= spec_capacity 100.
Proof.
  apply (xreallocappend_grows (bump_realloc 4096) 64 100 7%nat 1000 1040).
  split; vm_compute; discriminate.
Defined.

Example xreallocappend_100 :
  spec_capacity 100 = 135
  /\ xreallocappend (bump_realloc 4096) 64 16 1000 100 1040 =
       Some (Return 1040, 1175).
Proof. split; vm_compute; reflexivity. Qed.

(** C10: for every requested size [s] that is not above an element of the
    sequence representable in [size_t], the loop of [xreallocappend]
    leaves after finitely many turns, no addition of the run wraps around,
    the candidates of the run are the elements of the sequence, and the
    capacity is the least element of the sequence that is at least
    max(s, 8). *)
Theorem xreallocappend_capacity_least (w s : Z) (k : nat) :
  s <= growth_seq k <= SIZEMAX w ->
  exists n : nat,
    (n <= k)%nat
    /\ (forall fuel : nat,
          (n < fuel)%nat ->
          xreallocappend_capacity w fuel s = Some (growth_seq n))
    /\ (forall j : nat,
          (j < n)%nat ->
          candidate w j + Z.shiftr (candidate w j) 1 <= SIZEMAX w)
    /\ (forall j : nat, (j <= n)%nat -> candidate w j = growth_seq j)
    /\ Z.max s 8 <= growth_seq n
    /\ (forall m : nat,
          Z.max s 8 <= growth_seq m -> growth_seq n <= growth_seq m).
Proof.
  intros Hk.
  destruct (xreallocappend_capacity_run w s k Hk) as (n & Hn & Hge & Hlt & Hrun).
  assert (growth_seq n <= SIZEMAX w) as Hfit.
  { pose proof (growth_seq_mono n k Hn). lia. }
  exists n. split; [exact Hn|]. split; [exact Hrun|].
  split; [|split; [|split]].
  - intros j Hj.
    apply (proj2 (candidate_growth_seq w n n Hfit (Nat.le_refl n)) j Hj).
  - intros j Hj. apply (candidate_growth_seq w n j Hfit Hj).
  - pose proof (growth_seq_ge_8 n). lia.
  - intros m Hm. destruct (le_lt_dec n m) as [Hle|Hgt].
    + apply growth_seq_mono, Hle.
    + pose proof (Hlt m Hgt). lia.
Qed.

(** On a 64-bit [size_t] the largest representable element is the one of
    index 104. *)
Lemma growth_seq_largest_64 :
  growth_seq 104 = 16186175163037482499
  /\ growth_seq 104 <= SIZEMAX 64 < growth_seq 105.
Proof. split; [|split]; vm_compute; reflexivity || discriminate. Qed.

Lemma growth_seq_largest_32 :
  growth_seq 49 = 3342912336
  /\ growth_seq 49 <= SIZEMAX 32 < growth_seq 50.
Proof. split; [|split]; vm_compute; reflexivity || discriminate. Qed.

Lemma xreallocappend_capacity_least_witness :
  exists n : nat,
    (n <= 104)%nat
    /\ (forall fuel : nat,
          (n < fuel)%nat ->
          xreallocappend_capacity 64 fuel 16186175163037482499 =
            Some (growth_seq n))
    /\ (forall j : nat,
          (j < n)%nat ->
          candidate 64 j + Z.shiftr (candidate 64 j) 1 <= SIZEMAX 64)
    /\ (forall j : nat, (j <= n)%nat -> candidate 64 j = growth_seq j)
    /\ Z.max 16186175163037482499 8 <= growth_seq n
    /\ (forall m : nat,
          Z.max 16186175163037482499 8 <= growth_seq m ->
          growth_seq n <= growth_seq m).
Proof.
  apply (xreallocappend_capacity_least 64 16186175163037482499 104).
  split; vm_compute; discriminate.
Defined.

(** *** Requests above the representable elements *)

Lemma candidate_add (w : Z) (n m : nat) :
  candidate w (n + m) = Nat.iter n (grow w) (candidate w m).
Proof.
  induction n as [|n IH]; [reflexivity|].
  change (S n + m)%nat with (S (n + m)).
  rewrite candidate_S, IH. reflexivity.
Qed.

Lemma all_below_candidate (w s : Z) (n j : nat) :
  all_below w n (candidate w j) s = true ->
  forall i : nat, (j <= i < j + n)%nat -> candidate w i < s.
Proof.
  revert j. induction n as [|n IH]; intros j Hall i Hi; [lia|].
  simpl in Hall. apply andb_true_iff in Hall as [Hj Hrest].
  destruct (decide (i = j)) as [->|Hne].
  - apply Z.ltb_lt, Hj.
  - rewrite <- candidate_S in Hrest. apply (IH (S j) Hrest). lia.
Qed.

(** Once the candidates cycle, the ones of the first cycle are all there
    is. *)
Lemma candidate_cycle (w : Z) (mu lam : nat) :
  candidate w (mu + lam) = candidate w mu ->
  forall t : nat, candidate w (mu + lam + t) = candidate w (mu + t).
Proof.
  intros Hcyc t. rewrite (Nat.add_comm (mu + lam) t), (Nat.add_comm mu t).
  rewrite (candidate_add w t (mu + lam)), (candidate_add w t mu), Hcyc.
  reflexivity.
Qed.

Lemma candidate_cycle_below (w s : Z) (mu lam : nat) :
  (0 < lam)%nat ->
  candidate w (mu + lam) = candidate w mu ->
  all_below w (mu + lam) 8 s = true ->
  forall i : nat, candidate w i < s.
Proof.
  intros Hlam Hcyc Hall.
  pose proof (all_below_candidate w s (mu + lam) 0 Hall) as Hfirst.
  intros i. induction i as [i IH] using lt_wf_ind.
  destruct (le_lt_dec (mu + lam) i) as [Hge|Hlt].
  - replace i with (mu + lam + (i - (mu + lam)))%nat by lia.
    rewrite (candidate_cycle w mu lam Hcyc). apply IH. lia.
  - apply Hfirst. lia.
Qed.

Lemma aligned_size_loop_stuck (w s : Z) :
  (forall i : nat, candidate w i < s) ->
  forall (fuel j : nat), aligned_size_loop w fuel (candidate w j) s = None.
Proof.
  intros Hall fuel. induction fuel as [|fuel IH]; intros j; [reflexivity|].
  simpl. pose proof (Hall j).
  destruct (Z.ltb_spec (candidate w j) s); [|lia].
  rewrite <- candidate_S. apply IH.
Qed.

(** On a 32-bit [size_t] the loop never leaves for the request [SIZEMAX]:
    after 50713 turns the candidates enter a cycle of 53630 values, all
    of them smaller than the request. *)
Lemma xreallocappend_capacity_diverges_32 :
  forall fuel : nat, xreallocappend_capacity 32 fuel (SIZEMAX 32) = None.
Proof.
  intros fuel. unfold xreallocappend_capacity.
  apply (aligned_size_loop_stuck 32 (SIZEMAX 32)) with (j := 0%nat).
  apply (candidate_cycle_below 32 (SIZEMAX 32)
           (Z.to_nat 50713) (Z.to_nat 53630)).
  - apply Nat2Z.inj_lt. rewrite Z2Nat.id; lia.
  - vm_compute. reflexivity.
  - vm_compute. reflexivity.
Qed.

(* ================================================================== *)
(** * Further properties of the Status class *)

(** *** Assignment, copy and move *)

(** Copy assignment makes the receiver carry the code and the message of
    [rhs] and touches no other object; on the object itself it does
    nothing. *)
Theorem op_assign_copies (st : store) (this rhs : addr)
  (self other : Status) :
  st !! this = Some self ->
  st !! rhs = Some other ->
  exists st' : store,
    op_assign this rhs st = Some st'
    /\ st' !! this = Some other
    /\ (forall a : addr, a <> this -> st' !! a = st !! a)
    /\ (this = rhs -> st' = st).
Proof.
  intros Hs Ho. unfold op_assign. rewrite Hs, Ho.
  destruct other as [oc om]. simpl.
  destruct (Nat.eqb_spec this rhs) as [E|E]; simpl.
  - subst rhs. exists st. rewrite Ho in Hs. repeat split; auto.
  - eexists; split; [reflexivity|]. split; [apply lookup_insert_eq|].
    split; [|tauto]. intros a Ha. apply lookup_insert_ne. congruence.
Qed.

Lemma op_assign_copies_witness :
  let st : store :=
    <[0%nat := mkStatus SUCCESS ""]>
      (<[1%nat := mkStatus SYSTEM_ERROR "read failed"]> ∅) in
  exists st' : store,
    op_assign 0%nat 1%nat st = Some st'
    /\ st' !! 0%nat = Some (mkStatus SYSTEM_ERROR "read failed")
    /\ (forall a : addr, a <> 0%nat -> st' !! a = st !! a)
    /\ (0%nat = 1%nat -> st' = st).
Proof.
  intros st.
  apply (op_assign_copies st 0%nat 1%nat (mkStatus SUCCESS "")
           (mkStatus SYSTEM_ERROR "read failed")); reflexivity.
Defined.

(** Move assignment between two distinct objects gives the receiver the
    code and the message of [rhs]; [rhs] keeps its code and receives the
    old message of the receiver, so a moved-from failure still compares
    equal to the receiver and is still not OK; no other object changes. *)
Theorem op_move_assign_swaps (st : store) (this rhs : addr)
  (self other : Status) :
  st !! this = Some self ->
  st !! rhs = Some other ->
  this <> rhs ->
  exists st' : store,
    op_move_assign this rhs st = Some st'
    /\ st' !! this = Some other
    /\ st' !! rhs = Some (mkStatus (code_ other) (message_ self))
    /\ (forall a : addr, a <> this -> a <> rhs -> st' !! a = st !! a)
    /\ op_eq other (mkStatus (code_ other) (message_ self)) = true
    /\ IsOK (mkStatus (code_ other) (message_ self)) = IsOK other.
Proof.
  intros Hs Ho Hne. unfold op_move_assign. rewrite Hs, Ho.
  destruct other as [oc om]. simpl.
  destruct (Nat.eqb_spec this rhs) as [E|_]; [contradiction|]. simpl.
  eexists; split; [reflexivity|]. repeat split.
  - rewrite lookup_insert_ne by congruence. apply lookup_insert_eq.
  - apply lookup_insert_eq.
  - intros a Ha Hb. rewrite !lookup_insert_ne by congruence. reflexivity.
  - unfold op_eq. simpl. apply Z.eqb_refl.
Qed.

Lemma op_move_assign_swaps_witness :
  let st : store :=
    <[0%nat := mkStatus SUCCESS "idle"]>
      (<[1%nat := mkStatus SYSTEM_ERROR "read failed"]> ∅) in
  exists st' : store,
    op_move_assign 0%nat 1%nat st = Some st'
    /\ st' !! 0%nat = Some (mkStatus SYSTEM_ERROR "read failed")
    /\ st' !! 1%nat = Some (mkStatus SYSTEM_ERROR "idle")
    /\ (forall a : addr, a <> 0%nat -> a <> 1%nat -> st' !! a = st !! a)
    /\ op_eq (mkStatus SYSTEM_ERROR "read failed")
         (mkStatus SYSTEM_ERROR "idle") = true
    /\ IsOK (mkStatus SYSTEM_ERROR "idle") =
         IsOK (mkStatus SYSTEM_ERROR "read failed").
Proof.
  intros st.
  apply (op_move_assign_swaps st 0%nat 1%nat (mkStatus SUCCESS "idle")
           (mkStatus SYSTEM_ERROR "read failed"));
    [reflexivity | reflexivity | discriminate].
Defined.

(** Move assignment of an object to itself changes nothing. *)
Lemma op_move_assign_self (st : store) (this : addr) (self : Status) :
  st !! this = Some self -> op_move_assign this this st = Some st.
Proof.
  intros Hs. unfold op_move_assign. rewrite Hs, Nat.eqb_refl. reflexivity.
Qed.

(** The move constructor builds, in fresh storage, an object with the
    code and the message of [rhs], and leaves [rhs] with its code and an
    empty message; the copy constructor leaves [rhs] as it was. *)
Theorem Status_move_empties_message (st : store) (this rhs : addr)
  (other : Status) :
  st !! this = None ->
  st !! rhs = Some other ->
  (exists st' : store,
      Status_move this rhs st = Some st'
      /\ st' !! this = Some other
      /\ st' !! rhs = Some (mkStatus (code_ other) ""))
  /\ (exists st' : store,
      Status_copy this rhs st = Some st'
      /\ st' !! this = Some other
      /\ st' !! rhs = Some other).
Proof.
  intros Hfresh Ho.
  assert (this <> rhs) as Hne by congruence.
  unfold Status_move, Status_copy. rewrite Ho.
  destruct other as [oc om]. simpl. split.
  - eexists; split; [reflexivity|]. split.
    + rewrite lookup_insert_ne by congruence. apply lookup_insert_eq.
    + apply lookup_insert_eq.
  - eexists; split; [reflexivity|]. split.
    + apply lookup_insert_eq.
    + rewrite lookup_insert_ne by congruence. exact Ho.
Qed.

Lemma Status_move_empties_message_witness :
  let st : store := <[1%nat := mkStatus NOT_FOUND_ERROR "no key"]> ∅ in
  (exists st' : store,
      Status_move 0%nat 1%nat st = Some st'
      /\ st' !! 0%nat = Some (mkStatus NOT_FOUND_ERROR "no key")
      /\ st' !! 1%nat = Some (mkStatus NOT_FOUND_ERROR ""))
  /\ (exists st' : store,
      Status_copy 0%nat 1%nat st = Some st'
      /\ st' !! 0%nat = Some (mkStatus NOT_FOUND_ERROR "no key")
      /\ st' !! 1%nat = Some (mkStatus NOT_FOUND_ERROR "no key")).
Proof.
  intros st.
  apply (Status_move_empties_message st 0%nat 1%nat
           (mkStatus NOT_FOUND_ERROR "no key")); reflexivity.
Defined.

(** *** Accumulating outcomes *)

Lemma or_assign_all_failed (st : store) (this : addr) (self : Status)
  (rhss : list addr) :
  st !! this = Some self ->
  code_ self <> SUCCESS ->
  Forall (fun r => is_Some (st !! r)) rhss ->
  or_assign_all this rhss st = Some st.
Proof.
  intros Hs Hc. induction 1 as [|rhs rest [other Ho] _ IH]; [reflexivity|].
  simpl. rewrite (op_or_assign_unfold st this rhs self other Hs Ho).
  rewrite bool_decide_eq_false_2 by tauto. exact IH.
Qed.

Lemma IsOK_false (s : Status) : negb (IsOK s) = true <-> code_ s <> SUCCESS.
Proof.
  rewrite negb_true_iff, <- not_true_iff_false, IsOK_iff. reflexivity.
Qed.

Lemma first_failure_skip (s : Status) (l : list Status) :
  code_ s = SUCCESS -> first_failure (s :: l) = first_failure l.
Proof.
  intros Hc. unfold first_failure. simpl.
  destruct (negb (IsOK s)) eqn:E; [|reflexivity].
  apply IsOK_false in E. contradiction.
Qed.

Lemma first_failure_hit (s : Status) (l : list Status) :
  code_ s <> SUCCESS -> first_failure (s :: l) = Some s.
Proof.
  intros Hc. unfold first_failure. simpl.
  apply IsOK_false in Hc. rewrite Hc. reflexivity.
Qed.

Lemma or_assign_all_cons (st : store) (this rhs : addr)
  (rest : list addr) :
  or_assign_all this (rhs :: rest) st =
    op_or_assign this rhs st ≫= or_assign_all this rest.
Proof. simpl. destruct (op_or_assign this rhs st); reflexivity. Qed.

Lemma omap_lookup_cons (st : store) (rhs : addr) (rest : list addr)
  (other : Status) :
  st !! rhs = Some other ->
  omap (fun r => st !! r) (rhs :: rest) =
    other :: omap (fun r => st !! r) rest.
Proof. intros Ho. simpl. rewrite Ho. reflexivity. Qed.

(** First failure wins: after [status |= r1; ...; status |= rn] the
    receiver carries the first failure among its own value and the values
    of [r1], ..., [rn], and its own value when there is none; no other
    object changes. *)
Theorem or_assign_all_first_failure (st : store) (this : addr)
  (self : Status) (rhss : list addr) :
  st !! this = Some self ->
  Forall (fun r => is_Some (st !! r)) rhss ->
  exists st' : store,
    or_assign_all this rhss st = Some st'
    /\ st' !! this =
         Some (default self
                 (first_failure (self :: omap (fun r => st !! r) rhss)))
    /\ forall a : addr, a <> this -> st' !! a = st !! a.
Proof.
  intros Hs Hall.
  destruct (decide (code_ self = SUCCESS)) as [Hc|Hc].
  2:{ exists st. rewrite (or_assign_all_failed st this self rhss Hs Hc Hall).
      rewrite first_failure_hit by assumption. auto. }
  rewrite first_failure_skip by assumption.
  induction Hall as [|rhs rest [other Ho] Hrest IH].
  - exists st. simpl. auto.
  - rewrite or_assign_all_cons, (omap_lookup_cons st rhs rest other Ho).
    rewrite (op_or_assign_unfold st this rhs self other Hs Ho).
    case_bool_decide as G.
    + destruct G as (Hne & _ & Hf).
      rewrite first_failure_hit by assumption. simpl.
      exists (<[this := other]> st). simpl.
      rewrite (or_assign_all_failed _ this other rest
                 (lookup_insert_eq _ _ _) Hf).
      * split; [reflexivity|]. split; [apply lookup_insert_eq|].
        intros a Ha. apply lookup_insert_ne. congruence.
      * eapply Forall_impl; [exact Hrest|]. simpl. intros r Hr.
        rewrite lookup_insert. case_decide; [eauto | exact Hr].
    + rewrite first_failure_skip; [exact IH|].
      destruct (decide (code_ other = SUCCESS)) as [D|D]; [exact D|].
      assert (this = rhs) as -> by (destruct (decide (this = rhs)); tauto).
      congruence.
Qed.

Lemma or_assign_all_first_failure_witness :
  let st : store :=
    <[0%nat := mkStatus SUCCESS ""]>
      (<[1%nat := mkStatus SUCCESS "step one"]>
         (<[2%nat := mkStatus NOT_FOUND_ERROR "no key"]>
            (<[3%nat := mkStatus SYSTEM_ERROR "read failed"]> ∅))) in
  exists st' : store,
    or_assign_all 0%nat [1%nat; 2%nat; 3%nat] st = Some st'
    /\ st' !! 0%nat =
         Some (default (mkStatus SUCCESS "")
                 (first_failure
                    (mkStatus SUCCESS ""
                       :: omap (fun r => st !! r) [1%nat; 2%nat; 3%nat])))
    /\ forall a : addr, a <> 0%nat -> st' !! a = st !! a.
Proof.
  intros st.
  apply (or_assign_all_first_failure st 0%nat (mkStatus SUCCESS "")
           [1%nat; 2%nat; 3%nat]).
  - reflexivity.
  - repeat constructor; eexists; reflexivity.
Defined.

Example or_assign_all_example :
  let st : store :=
    <[0%nat := mkStatus SUCCESS ""]>
      (<[1%nat := mkStatus SUCCESS "step one"]>
         (<[2%nat := mkStatus NOT_FOUND_ERROR "no key"]>
            (<[3%nat := mkStatus SYSTEM_ERROR "read failed"]> ∅))) in
  (or_assign_all 0%nat [1%nat; 2%nat; 3%nat] st ≫= (.!! 0%nat))
  = Some (mkStatus NOT_FOUND_ERROR "no key").
Proof. vm_compute. reflexivity. Qed.

(** *** The order of statuses *)

Lemma op_lt_spec (a b : Status) :
  op_lt a b = true <->
    code_value (code_ a) < code_value (code_ b)
    \/ (code_ a = code_ b /\ lex_lt (message_ a) (message_ b)).
Proof.
  unfold op_lt. rewrite code_value_eqb.
  destruct (decide (code_ a = code_ b)) as [E|E].
  - rewrite bool_decide_eq_true_2 by assumption. simpl.
    rewrite string_ltb_lex, E. split; [tauto|].
    intros [Hlt|[_ Hlex]]; [lia | exact Hlex].
  - rewrite bool_decide_eq_false_2 by assumption. simpl.
    rewrite Z.ltb_lt. tauto.
Qed.

Lemma N_of_ascii_inj (c d : ascii) : N_of_ascii c = N_of_ascii d -> c = d.
Proof.
  intros E. rewrite <- (ascii_N_embedding c), <- (ascii_N_embedding d), E.
  reflexivity.
Qed.

Lemma lex_lt_irrefl (s : string) : ~ lex_lt s s.
Proof.
  induction s as [|c s IH]; intros H; inversion H; subst.
  - lia.
  - contradiction.
Qed.

Lemma lex_lt_trans (s t u : string) : lex_lt s t -> lex_lt t u -> lex_lt s u.
Proof.
  intros Hst. revert u.
  induction Hst as [c t|c d s t Hcd|c s t _ IH]; intros u Htu;
    inversion Htu; subst.
  - constructor.
  - constructor.
  - apply lex_lt_head. lia.
  - apply lex_lt_head. assumption.
  - apply lex_lt_head. assumption.
  - apply lex_lt_tail, IH. assumption.
Qed.

Lemma lex_lt_total (s t : string) : lex_lt s t \/ s = t \/ lex_lt t s.
Proof.
  revert t. induction s as [|c s IH]; intros [|d t].
  - auto.
  - left. constructor.
  - right. right. constructor.
  - destruct (N.lt_trichotomy (N_of_ascii c) (N_of_ascii d))
      as [Hlt|[Heq|Hgt]].
    + left. apply lex_lt_head, Hlt.
    + apply N_of_ascii_inj in Heq. subst d.
      destruct (IH t) as [H|[->|H]].
      * left. apply lex_lt_tail, H.
      * auto.
      * right. right. apply lex_lt_tail, H.
    + right. right. apply lex_lt_head, Hgt.
Qed.

(** [operator<] is a strict total order on statuses taken with their
    messages: it is irreflexive and transitive, and two statuses are
    ordered one way or the other unless they have the same code and the
    same message. *)
Theorem op_lt_strict_total_order :
  (forall a : Status, op_lt a a = false)
  /\ (forall a b c : Status,
        op_lt a b = true -> op_lt b c = true -> op_lt a c = true)
  /\ (forall a b : Status, op_lt a b = true \/ a = b \/ op_lt b a = true).
Proof.
  split; [|split].
  - intros a. apply not_true_iff_false. rewrite op_lt_spec.
    intros [H|[_ H]]; [lia | exact (lex_lt_irrefl _ H)].
  - intros a b c. rewrite !op_lt_spec.
    intros [H1|[E1 L1]] [H2|[E2 L2]].
    + left. lia.
    + left. rewrite <- E2. exact H1.
    + left. rewrite E1. exact H2.
    + right. split; [congruence | exact (lex_lt_trans _ _ _ L1 L2)].
  - intros [ca ma] [cb mb]. rewrite !op_lt_spec. simpl.
    destruct (Z.lt_trichotomy (code_value ca) (code_value cb))
      as [H|[H|H]]; [tauto | | tauto].
    apply code_value_inj in H. subst cb.
    destruct (lex_lt_total ma mb) as [L|[->|L]]; tauto.
Qed.

(** [==] is coarser than the order: two statuses with the same code and
    different messages are equal for [==] and still strictly ordered by
    [<], one way and not the other. *)
Theorem op_eq_coarser_than_op_lt (a b : Status) :
  code_ a = code_ b ->
  message_ a <> message_ b ->
  op_eq a b = true
  /\ op_ne a b = false
  /\ op_lt a b = negb (op_lt b a).
Proof.
  intros Hc Hm. unfold op_eq, op_ne. rewrite code_value_eqb.
  rewrite bool_decide_eq_true_2 by assumption.
  split; [reflexivity|]. split; [reflexivity|].
  destruct (lex_lt_total (message_ a) (message_ b)) as [L|[E|L]];
    [|contradiction|].
  - rewrite (proj2 (op_lt_spec a b)) by tauto.
    destruct (op_lt b a) eqn:E; [|reflexivity].
    apply op_lt_spec in E as [E|[_ E]]; [rewrite Hc in E; lia|].
    destruct (lex_lt_irrefl _ (lex_lt_trans _ _ _ L E)).
  - rewrite (proj2 (op_lt_spec b a)) by (right; split; [congruence|exact L]).
    destruct (op_lt a b) eqn:E; [|reflexivity].
    apply op_lt_spec in E as [E|[_ E]]; [rewrite Hc in E; lia|].
    destruct (lex_lt_irrefl _ (lex_lt_trans _ _ _ L E)).
Qed.

Lemma op_eq_coarser_than_op_lt_witness :
  op_eq (mkStatus SYSTEM_ERROR "a") (mkStatus SYSTEM_ERROR "b") = true
  /\ op_ne (mkStatus SYSTEM_ERROR "a") (mkStatus SYSTEM_ERROR "b") = false
  /\ op_lt (mkStatus SYSTEM_ERROR "a") (mkStatus SYSTEM_ERROR "b") =
       negb (op_lt (mkStatus SYSTEM_ERROR "b") (mkStatus SYSTEM_ERROR "a")).
Proof.
  apply (op_eq_coarser_than_op_lt (mkStatus SYSTEM_ERROR "a")
           (mkStatus SYSTEM_ERROR "b")); [reflexivity | discriminate].
Defined.

(** The comparisons with a code agree with each other, with the
    comparison of two statuses and with [IsOK], on whichever side the
    code stands. *)
Theorem code_comparisons_agree (s : Status) (c : Code) (m : string) :
  op_eq_code s c = bool_decide (GetCode s = c)
  /\ code_op_eq c s = op_eq_code s c
  /\ op_eq s (mkStatus c m) = op_eq_code s c
  /\ op_ne_code s c = negb (op_eq_code s c)
  /\ code_op_ne c s = negb (op_eq_code s c)
  /\ op_ne s (mkStatus c m) = negb (op_eq_code s c)
  /\ IsOK s = op_eq_code s SUCCESS.
Proof.
  unfold op_eq_code, code_op_eq, op_ne_code, code_op_ne, op_eq, op_ne,
    IsOK, GetCode. simpl.
  rewrite (Z.eqb_sym (code_value c)), code_value_eqb.
  repeat split.
Qed.

(** *** The string expression *)



(* ================================================================== *)
(** * Further properties of the append-oriented growth *)

Lemma aligned_size_loop_stable (w s s' : Z) (fuel : nat) (a c : Z) :
  aligned_size_loop w fuel a s = Some c ->
  s <= s' <= c ->
  aligned_size_loop w fuel a s' = Some c.
Proof.
  revert a. induction fuel as [|fuel IH]; intros a; [discriminate|].
  simpl. destruct (Z.ltb_spec a s) as [Hlt|Hge].
  - intros H Hs. destruct (Z.ltb_spec a s'); [|lia]. apply IH; assumption.
  - intros [= <-] Hs. destruct (Z.ltb_spec a s'); [lia | reflexivity].
Qed.

(** A granted capacity serves every request between the one that
    obtained it and the capacity itself: the loop gives the same capacity
    again, so a buffer that grows within its capacity is not resized to
    another one. *)
Theorem xreallocappend_capacity_stable (w s s' : Z) (fuel : nat) (c : Z) :
  xreallocappend_capacity w fuel s = Some c ->
  s <= s' <= c ->
  xreallocappend_capacity w fuel s' = Some c.
Proof. apply aligned_size_loop_stable. Qed.

Lemma xreallocappend_capacity_stable_witness :
  xreallocappend_capacity 64 16 135 = Some 135.
Proof.
  apply (xreallocappend_capacity_stable 64 100 135 16 135);
    [reflexivity | lia].
Defined.

(** The capacity does not decrease when the request grows, wrap-around
    or not. *)
Theorem xreallocappend_capacity_monotone (w s s' : Z) (fuel fuel' : nat)
  (c c' : Z) :
  xreallocappend_capacity w fuel s = Some c ->
  xreallocappend_capacity w fuel' s' = Some c' ->
  s <= s' ->
  c <= c'.
Proof.
  unfold xreallocappend_capacity. intros H H' Hs.
  pose proof (aligned_size_loop_exit _ _ _ _ _ H') as [Hc' _].
  destruct (Z_le_gt_dec s' c) as [Hle|Hgt]; [|lia].
  pose proof (aligned_size_loop_stable w s s' fuel 8 c H ltac:(lia)) as H2.
  rewrite (aligned_size_loop_det _ _ _ _ _ _ _ H2 H'). lia.
Qed.

Lemma xreallocappend_capacity_monotone_witness :
  xreallocappend_capacity 64 16 100 = Some 135
  /\ xreallocappend_capacity 64 16 136 = Some 202
  /\ 135 <= 202.
Proof.
  split; [reflexivity|]. split; [reflexivity|].
  apply (xreallocappend_capacity_monotone 64 100 136 16 16 135 202);
    [reflexivity | reflexivity | lia].
Defined.

Lemma grow_range (w a : Z) :
  0 <= w -> 0 <= a -> 0 <= grow w a <= a + a / 2.
Proof.
  intros Hw Ha. unfold grow, size_wrap. rewrite shiftr_1.
  assert (0 < 2 ^ w) by (apply Z.pow_pos_nonneg; lia).
  assert (0 <= a / 2) by (apply Z.div_pos; lia).
  split; [apply Z.mod_pos_bound; lia | apply Z.mod_le; lia].
Qed.

Lemma aligned_size_loop_waste (w s : Z) (fuel : nat) (a c : Z) :
  0 <= w -> 0 <= a ->
  aligned_size_loop w fuel a s = Some c ->
  c = a \/ c <= (s - 1) + (s - 1) / 2.
Proof.
  intros Hw. revert a. induction fuel as [|fuel IH]; intros a Ha;
    [discriminate|].
  simpl. destruct (Z.ltb_spec a s) as [Hlt|Hge].
  - intros H. right. pose proof (grow_range w a Hw Ha) as [Hg0 Hg].
    assert (a + a / 2 <= (s - 1) + (s - 1) / 2).
    { assert (a / 2 <= (s - 1) / 2) by (apply Z.div_le_mono; lia). lia. }
    destruct (IH _ Hg0 H) as [->|Hb]; lia.
  - intros [= <-]. left. reflexivity.
Qed.

(** The capacity is exactly 8 for a request of at most 8 bytes, and for a
    larger request [s] it lies between [s] and [(s-1) + (s-1)/2]: less
    than one and a half times the request, wrap-around or not. *)
Theorem xreallocappend_capacity_waste (w s : Z) (fuel : nat) (c : Z) :
  0 <= w ->
  xreallocappend_capacity w fuel s = Some c ->
  (s <= 8 -> c = 8) /\ (8 < s -> s <= c <= (s - 1) + (s - 1) / 2).
Proof.
  intros Hw H. unfold xreallocappend_capacity in H.
  pose proof (aligned_size_loop_exit _ _ _ _ _ H) as [Hs Hc].
  pose proof (aligned_size_loop_waste w s fuel 8 c Hw ltac:(lia) H) as Hb.
  split; intros Hs8; lia.
Qed.

Lemma xreallocappend_capacity_waste_witness :
  xreallocappend_capacity 64 16 100 = Some 135
  /\ (100 <= 8 -> 135 = 8)
  /\ (8 < 100 -> 100 <= 135 <= (100 - 1) + (100 - 1) / 2).
Proof.
  split; [reflexivity|].
  apply (xreallocappend_capacity_waste 64 100 16 135); [lia | reflexivity].
Defined.

(** All the requests up to [s], for [s] below a representable element of
    the sequence, are granted one of the first [spec_turns s + 1]
    elements of the sequence: growing a buffer to [s] bytes, in however
    many appends, goes through at most [2 * log2_up s + 1] capacities. *)
Theorem xreallocappend_capacity_count (w s s' : Z) (k : nat) :
  s <= growth_seq k <= SIZEMAX w ->
  s' <= s ->
  exists j : nat,
    (j <= spec_turns s)%nat
    /\ forall fuel : nat,
         (spec_turns s < fuel)%nat ->
         xreallocappend_capacity w fuel s' = Some (growth_seq j).
Proof.
  intros Hk Hs'.
  destruct (xreallocappend_capacity_run w s' k ltac:(lia))
    as (n & _ & _ & Hlt & Hrun).
  assert (n <= spec_turns s)%nat as Hn.
  { destruct (le_lt_dec n (spec_turns s)) as [Hle|Hgt]; [assumption|].
    pose proof (Hlt _ Hgt). pose proof (growth_seq_spec_turns s). lia. }
  exists n. split; [exact Hn|]. intros fuel Hf. apply Hrun. lia.
Qed.

Lemma xreallocappend_capacity_count_witness :
  exists j : nat,
    (j <= spec_turns 1000)%nat
    /\ forall fuel : nat,
         (spec_turns 1000 < fuel)%nat ->
         xreallocappend_capacity 64 fuel 500 = Some (growth_seq j).
Proof.
  apply (xreallocappend_capacity_count 64 1000 500 12).
  - split; vm_compute; discriminate.
  - lia.
Defined.

Section GrowthFailFast.

Context {heap : Type}.
Variable std_realloc : ptr -> Z -> heap -> ptr * heap.

(** Whatever [xreallocappend] returns is what [xrealloc] returns for a
    capacity of at least the request and at least 8: never a null
    pointer, and [std::bad_alloc] exactly when the platform fails to
    reallocate to that capacity. *)
Theorem xreallocappend_fail_fast (w : Z) (fuel : nat) (p : ptr) (s : Z)
  (h h' : heap) (r : result bad_alloc ptr) :
  xreallocappend std_realloc w fuel p s h = Some (r, h') ->
  r <> Return nullptr
  /\ exists c : Z,
       xreallocappend_capacity w fuel s = Some c
       /\ s <= c /\ 8 <= c
       /\ h' = snd (std_realloc p c h)
       /\ (r = Throw std_bad_alloc <-> fst (std_realloc p c h) = nullptr)
       /\ (fst (std_realloc p c h) <> nullptr ->
           r = Return (fst (std_realloc p c h))).
Proof.
  unfold xreallocappend.
  destruct (xreallocappend_capacity w fuel s) as [c|] eqn:Hc;
    [|discriminate].
  rewrite xrealloc_checked. intros [= Hr Hh].
  destruct (checked_spec (std_realloc p c h)) as (Hnull & Hok & Hnn & Hsnd).
  unfold checked in *. simpl in *.
  split; [congruence|]. exists c.
  destruct (xreallocappend_capacity_bounds w s fuel c Hc) as [Hs H8].
  repeat split; try assumption; try congruence.
  - intros Hthrow. destruct (Z.eqb_spec (fst (std_realloc p c h)) nullptr);
      [assumption | congruence].
  - intros Hn. rewrite <- Hr. apply Hnull, Hn.
  - intros Hn. rewrite <- Hr. apply Hok, Hn.
Qed.

End GrowthFailFast.

Lemma xreallocappend_fail_fast_witness :
  let r : result bad_alloc ptr := Throw std_bad_alloc in
  r <> Return nullptr
  /\ exists c : Z,
       xreallocappend_capacity 64 16 100 = Some c
       /\ 100 <= c /\ 8 <= c
       /\ 1040 = snd (bump_realloc 1100 1000 c 1040)
       /\ (r = Throw std_bad_alloc <->
           fst (bump_realloc 1100 1000 c 1040) = nullptr)
       /\ (fst (bump_realloc 1100 1000 c 1040) <> nullptr ->
           r = Return (fst (bump_realloc 1100 1000 c 1040))).
Proof.
  intros r.
  apply (xreallocappend_fail_fast (bump_realloc 1100) 64 16 1000 100
           1040 1040 r).
  reflexivity.
Defined.

(* ================================================================== *)
(** * Further properties of the container helpers *)

(** [CheckMap] is [CheckSet] on the keys; when it reports the key,
    [SearchMap] does not depend on the default value, and when it does
    not, [SearchMap] returns the default value, converted to the type it
    returns. *)
Theorem lookup_helpers_agree `{Countable K} {V : Type} (conv : V -> K)
  (map : gmap K V) (key : K) :
  CheckMap map key = CheckSet (dom map) key
  /\ (CheckMap map key = true ->
      forall d d' : V, SearchMap conv map key d = SearchMap conv map key d')
  /\ (CheckMap map key = false ->
      forall d : V, SearchMap conv map key d = conv d).
Proof.
  unfold CheckMap, CheckSet, SearchMap. split; [|split].
  - destruct (map !! key) as [v|] eqn:E; symmetry.
    + apply bool_decide_eq_true_2, elem_of_dom. eauto.
    + apply bool_decide_eq_false_2. rewrite elem_of_dom, E.
      intros [v Hv]. discriminate Hv.
  - destruct (map !! key); [reflexivity | discriminate].
  - destruct (map !! key); [discriminate | reflexivity].
Qed.

Lemma lookup_helpers_agree_witness :
  let map : gmap Z Z := {[1 := 300]} in
  CheckMap map 1 = CheckSet (dom map) 1
  /\ (forall d d' : Z,
        SearchMap to_uint8 map 1 d = SearchMap to_uint8 map 1 d')
  /\ (forall d : Z, SearchMap to_uint8 map 2 d = to_uint8 d).
Proof.
  intros map.
  pose proof (lookup_helpers_agree to_uint8 map 1) as (H1 & H2 & _).
  pose proof (lookup_helpers_agree to_uint8 map 2) as (_ & _ & H3).
  split; [exact H1|]. split; [apply H2 | apply H3]; reflexivity.
Defined.

Lemma SearchMap_same_type_witness :
  SearchMap id (∅ : gmap Z Z) 1 300 = 300
  /\ SearchMap id ({[1 := 300]} : gmap Z Z) 1 0 = 300.
Proof.
  split.
  - apply (proj1 (SearchMap_same_type (∅ : gmap Z Z) 1 300)). reflexivity.
  - apply (proj2 (SearchMap_same_type ({[1 := 300]} : gmap Z Z) 1 0) 300).
    reflexivity.
Defined.

(* ================================================================== *)
(** * Properties of the command line *)

Lemma PrintUsageAndDie_run : PrintUsageAndDie = (usage_events, Throw 1).
Proof. reflexivity. Qed.

Lemma usage_events_stderr :
  forallb (fun e => negb (is_stdout e)) usage_events = true.
Proof. reflexivity. Qed.

Lemma PrintAllConfig_run (env : BuildEnv) :
  snd (PrintAllConfig env) = Return tt
  /\ forallb is_stdout (fst (PrintAllConfig env)) = true
  /\ fst (PrintAllConfig env) <> [].
Proof.
  unfold PrintAllConfig.
  destruct (negb (String.eqb (info_at (GetSystemInfo env) "mem_total") ""));
    repeat split; discriminate.
Qed.

Section BuildUtilProperties.

Variable env : BuildEnv.
Variable ParseCommandArguments :
  list string -> gmap string Z ->
  bool * gmap string (list string) * string.

Lemma ProcessConfig_valid (args : list string)
  (cmd_args : gmap string (list string)) (cmd_error : string) :
  ParseCommandArguments args cmd_configs = (true, cmd_args, cmd_error) ->
  ProcessConfig env ParseCommandArguments args =
    ((if CheckMap cmd_args "-v"
      then PrintF ("%s" ++ nl)%string [farg_str (PACKAGE_VERSION env)]
      else if CheckMap cmd_args "-i"
      then PrintF ("%s" ++ nl)%string [farg_str (_TKRZW_APPINC env)]
      else if CheckMap cmd_args "-l"
      then PrintF ("%s" ++ nl)%string [farg_str (_TKRZW_APPLIBS env)]
      else if CheckMap cmd_args "-p"
      then PrintF ("%s" ++ nl)%string [farg_str (_TKRZW_BINDIR env)]
      else PrintAllConfig env) ;; ret 0).
Proof.
  intros Hp. unfold ProcessConfig. rewrite Hp. simpl.
  match goal with |- context [bind ?m _] => destruct m as [t [[]|n]] end;
    simpl; reflexivity.
Qed.

Lemma CheckMap_false_dom (cmd_args : gmap string (list string))
  (key : string) :
  CheckMap cmd_args key = false <-> key ∉ dom cmd_args.
Proof.
  rewrite <- CheckMap_dom. destruct (CheckMap cmd_args key);
    split; congruence.
Qed.

(** The options of the [config] subcommand are looked at in the order
    [-v], [-i], [-l], [-p]: the first one present decides the single line
    that is printed, whatever other options come with it; [-p] prints
    [_TKRZW_BINDIR]; with none of them the whole configuration is
    printed.  The function returns 0 in every case. *)
Theorem ProcessConfig_precedence (args : list string)
  (cmd_args : gmap string (list string)) (cmd_error : string) :
  ParseCommandArguments args cmd_configs = (true, cmd_args, cmd_error) ->
  let line := fun v : string =>
    ([ev_PrintF ("%s" ++ nl)%string [farg_str v]], Return 0) : prog Z in
  let run := ProcessConfig env ParseCommandArguments args in
  ("-v"%string ∈ dom cmd_args -> run = line (PACKAGE_VERSION env))
  /\ ("-v"%string ∉ dom cmd_args -> "-i"%string ∈ dom cmd_args ->
      run = line (_TKRZW_APPINC env))
  /\ ("-v"%string ∉ dom cmd_args -> "-i"%string ∉ dom cmd_args ->
      "-l"%string ∈ dom cmd_args -> run = line (_TKRZW_APPLIBS env))
  /\ ("-v"%string ∉ dom cmd_args -> "-i"%string ∉ dom cmd_args ->
      "-l"%string ∉ dom cmd_args -> "-p"%string ∈ dom cmd_args ->
      run = line (_TKRZW_BINDIR env))
  /\ ("-v"%string ∉ dom cmd_args -> "-i"%string ∉ dom cmd_args ->
      "-l"%string ∉ dom cmd_args -> "-p"%string ∉ dom cmd_args ->
      run = (fst (PrintAllConfig env), Return 0)).
Proof.
  intros Hp line run. subst run.
  rewrite (ProcessConfig_valid args cmd_args cmd_error Hp).
  repeat split;
    repeat (let H := fresh in
            intros H;
            first [ apply CheckMap_dom in H | apply CheckMap_false_dom in H ];
            rewrite H);
    try reflexivity.
  destruct (PrintAllConfig_run env) as [Hr _].
  destruct (PrintAllConfig env) as [t r]. simpl in *. subst r. simpl.
  rewrite app_nil_r. reflexivity.
Qed.

(** An invalid command line of the [config] subcommand prints the error
    and the usage on the standard error, prints nothing on the standard
    output and leaves with status 1, whatever options were recognised. *)
Theorem ProcessConfig_invalid (args : list string)
  (cmd_args : gmap string (list string)) (cmd_error : string) :
  ParseCommandArguments args cmd_configs = (false, cmd_args, cmd_error) ->
  ProcessConfig env ParseCommandArguments args =
    (ev_EPrint ["Invalid command: "%string; cmd_error; (nl ++ nl)%string]
       :: usage_events, Throw 1).
Proof. intros Hp. unfold ProcessConfig. rewrite Hp. reflexivity. Qed.

(** [version] and [--version] print the same single line, with [big] or
    [little] after the byte order, and return 0; arguments after the
    subcommand are not looked at. *)
Theorem main_version (argv0 sub : string) (rest : list string) :
  sub = "version"%string \/ sub = "--version"%string ->
  main env ParseCommandArguments (argv0 :: sub :: rest) =
    ([ev_PrintF ("Tkrzw %s (library %s) on %s (%s endian)" ++ nl)%string
        [farg_str (PACKAGE_VERSION env); farg_str (LIBRARY_VERSION env);
         farg_str (OS_NAME env);
         farg_str (if TKRZW__IS_BIG_ENDIANE env then "big" else "little")]],
     Return 0).
Proof.
  intros Hsub. unfold main.
  assert ((Z.of_nat (length (argv0 :: sub :: rest)) <? 2) = false) as ->.
  { apply Z.ltb_ge. simpl length. lia. }
  destruct Hsub as [-> | ->]; reflexivity.
Qed.

(** A run of [main] either leaves with status 1 after the usage, having
    written on the standard error only, or returns 0 having written on
    the standard output only, and at least one line.  The first happens
    exactly when there is no subcommand, when the subcommand is not
    [config], [version] or [--version], or when the options of [config]
    are invalid. *)
Theorem main_exit_discipline (argv : list string) :
  let run := main env ParseCommandArguments argv in
  let failing :=
    (length argv < 2)%nat
    \/ (nth 1 argv ""%string <> "config"%string
        /\ nth 1 argv ""%string <> "version"%string
        /\ nth 1 argv ""%string <> "--version"%string)
    \/ (nth 1 argv ""%string = "config"%string
        /\ fst (fst (ParseCommandArguments (tail argv) cmd_configs))
           = false) in
  (failing ->
     snd run = Throw 1
     /\ forallb (fun e => negb (is_stdout e)) (fst run) = true
     /\ exists pre : list event, fst run = pre ++ usage_events)
  /\ (~ failing ->
     snd run = Return 0
     /\ forallb is_stdout (fst run) = true
     /\ fst run <> []).
Proof.
  intros run failing. subst run failing.
  destruct argv as [|argv0 [|sub rest]].
  - split; [intros _ | simpl; lia].
    repeat split. exists []. reflexivity.
  - split; [intros _ | simpl; lia].
    repeat split. exists []. reflexivity.
  - unfold main.
    assert ((Z.of_nat (length (argv0 :: sub :: rest)) <? 2) = false) as ->.
    { apply Z.ltb_ge. simpl length. lia. }
    change (nth 1 (argv0 :: sub :: rest) ""%string) with sub.
    change (tail (argv0 :: sub :: rest)) with (sub :: rest).
    destruct (String.eqb_spec sub "config") as [->|Hc].
    + destruct (ParseCommandArguments ("config"%string :: rest) cmd_configs)
        as [[ok cmd_args] cmd_error] eqn:Hp.
      destruct ok.
      * split; [intros [H|[H|H]]; simpl in H;
                 [lia | tauto | destruct H; discriminate]|].
        intros _.
        rewrite (ProcessConfig_valid _ cmd_args cmd_error Hp).
        destruct (PrintAllConfig_run env) as (Hr & Hout & Hne).
        destruct (PrintAllConfig env) as [t r]. simpl in Hr, Hout, Hne.
        subst r.
        destruct (CheckMap cmd_args "-v"); [repeat split; discriminate|].
        destruct (CheckMap cmd_args "-i"); [repeat split; discriminate|].
        destruct (CheckMap cmd_args "-l"); [repeat split; discriminate|].
        destruct (CheckMap cmd_args "-p"); [repeat split; discriminate|].
        simpl. rewrite !app_nil_r. repeat split; assumption.
      * split; [intros _ | intros H; exfalso; apply H; simpl; auto].
        rewrite (ProcessConfig_invalid _ cmd_args cmd_error Hp).
        repeat split.
        exists [ev_EPrint
                  ["Invalid command: "%string; cmd_error; (nl ++ nl)%string]].
        reflexivity.
    + destruct (String.eqb_spec sub "version") as [->|Hv];
        [|destruct (String.eqb_spec sub "--version") as [->|Hvv]].
      * split; [intros [H|[H|H]]; simpl in H;
                 [lia | tauto | destruct H; discriminate]|].
        intros _. repeat split. discriminate.
      * split; [intros [H|[H|H]]; simpl in H;
                 [lia | tauto | destruct H; discriminate]|].
        intros _. repeat split. discriminate.
      * split; [intros _ | intros H; exfalso; apply H; simpl; auto].
        repeat split. exists []. reflexivity.
Qed.

End BuildUtilProperties.

Lemma ProcessConfig_precedence_witness :
  ProcessConfig example_env example_parse ["config"; "-p"; "-v"]%string =
    ([ev_PrintF ("%s" ++ nl)%string [farg_str "1.0.32"]], Return 0).
Proof.
  assert (example_parse ["config"; "-p"; "-v"]%string cmd_configs =
            (true,
             list_to_map [("-p"%string, []); ("-v"%string, [])],
             ""%string)) as Hp by (vm_compute; reflexivity).
  apply (proj1 (ProcessConfig_precedence example_env example_parse
                  _ _ _ Hp)).
  apply elem_of_dom. eexists. vm_compute. reflexivity.
Defined.

Lemma ProcessConfig_invalid_witness :
  ProcessConfig example_env example_parse ["config"; "-x"; "-v"]%string =
    (ev_EPrint ["Invalid command: "%string; "invalid option"%string;
                (nl ++ nl)%string]
       :: usage_events, Throw 1).
Proof.
  apply (ProcessConfig_invalid example_env example_parse
           ["config"; "-x"; "-v"]%string ∅ "invalid option").
  vm_compute. reflexivity.
Defined.

Lemma main_version_witness :
  main example_env example_parse
    ["tkrzw_build_util"; "--version"; "extra"]%string =
    ([ev_PrintF ("Tkrzw %s (library %s) on %s (%s endian)" ++ nl)%string
        [farg_str "1.0.32"; farg_str "1.79.0"; farg_str "Linux";
         farg_str "little"]],
     Return 0).
Proof.
  apply (main_version example_env example_parse "tkrzw_build_util"
           "--version" ["extra"%string]).
  right. reflexivity.
Defined.

Lemma main_exit_discipline_witness :
  (snd (main example_env example_parse ["tkrzw_build_util"; "help"]%string)
     = Throw 1
   /\ forallb (fun e => negb (is_stdout e))
        (fst (main example_env example_parse
                ["tkrzw_build_util"; "help"]%string)) = true
   /\ exists pre : list event,
        fst (main example_env example_parse
               ["tkrzw_build_util"; "help"]%string) = pre ++ usage_events)
  /\ (snd (main example_env example_parse
             ["tkrzw_build_util"; "config"; "-l"]%string) = Return 0
      /\ forallb is_stdout
           (fst (main example_env example_parse
                   ["tkrzw_build_util"; "config"; "-l"]%string)) = true
      /\ fst (main example_env example_parse
                ["tkrzw_build_util"; "config"; "-l"]%string) <> []).
Proof.
  split.
  - apply (proj1 (main_exit_discipline example_env example_parse
                    ["tkrzw_build_util"; "help"]%string)).
    right. left. repeat split; discriminate.
  - apply (proj2 (main_exit_discipline example_env example_parse
                    ["tkrzw_build_util"; "config"; "-l"]%string)).
    intros [H|[H|H]].
    + simpl in H. lia.
    + destruct H as [H _]. apply H. reflexivity.
    + destruct H as [_ H]. vm_compute in H. discriminate H.
Defined.

Lemma CodeName_inj_witness :
  CodeName NOT_FOUND_ERROR = "NOT_FOUND_ERROR"%string
  /\ NOT_FOUND_ERROR = NOT_FOUND_ERROR.
Proof.
  split; [reflexivity|].
  apply (CodeName_inj NOT_FOUND_ERROR NOT_FOUND_ERROR). reflexivity.
Defined.

(** On a 32-bit [size_t] the candidates never exceed 4294570461: for
    every larger request the loop of [xreallocappend] never leaves,
    however much fuel it is given. *)
Theorem xreallocappend_capacity_diverges_32_above (s : Z) :
  4294570461 < s ->
  forall fuel : nat, xreallocappend_capacity 32 fuel s = None.
Proof.
  intros Hs fuel. unfold xreallocappend_capacity.
  apply (aligned_size_loop_stuck 32 s) with (j := 0%nat).
  intros i.
  assert (candidate 32 i < 4294570462); [|lia].
  apply (candidate_cycle_below 32 4294570462
           (Z.to_nat 50713) (Z.to_nat 53630)).
  - apply Nat2Z.inj_lt. rewrite Z2Nat.id; lia.
  - vm_compute. reflexivity.
  - vm_compute. reflexivity.
Qed.

Lemma xreallocappend_capacity_diverges_32_above_witness :
  xreallocappend_capacity 32 1000 4294967000 = None.
Proof.
  apply (xreallocappend_capacity_diverges_32_above 4294967000). lia.
Defined.
